(** * Recast: circuit breaker, fallback store, resilient cache and guild registry

    A shallow embedding of the cache package (circuit breaker, fallback
    cache, cache facade), of the guild-context part of the bot package, and
    of the utilities the bot calls (command validation, option maps,
    durations as text), with the properties stated about them.

    Conventions of the embedding:
    - a Go [int] is a [Z] with the 64-bit two's-complement wrap-around of
      [++] written out ([Go.incr]);
    - a [time.Time] is a [Z], nanoseconds on one clock, the zero [Time]
      being [0]; a [time.Duration] is a [Z]; [Time.Sub] saturates to the
      range of a [Duration] as the Go library does;
    - every method takes the reading of the clock as an argument [now];
      the reads of the clock inside one call see the same instant;
    - a method with a pointer receiver is a function from the state before
      to the state after (with the result, when it has one);
    - [range] over a Go map visits every entry once in an order the
      language leaves open: a function that ranges takes the order of the
      visit as an argument, and the theorems hold for every order;
    - the mutexes are not modelled: each method body is one critical
      section, and the embedding runs them one after the other. *)

From Stdlib Require Import ZArith Lia List Bool.
From Stdlib.Strings Require Import Byte.
From stdpp Require Import gmap strings list fin_maps pretty.

(** ** Go integers and time *)

Module Go.
Local Open Scope Z_scope.

Definition int_min : Z := - 2 ^ 63.
Definition int_max : Z := 2 ^ 63 - 1.

Definition in_int (x : Z) : Prop := int_min <= x <= int_max.

(** Two's-complement wrap-around of a 64-bit signed integer. *)
Definition wrap (x : Z) : Z := (x + 2 ^ 63) mod 2 ^ 64 - 2 ^ 63.

(** [x++] on an [int]. *)
Definition incr (x : Z) : Z := wrap (x + 1).

Definition Time := Z.
Definition Duration := Z.

(** The zero value of [time.Time]. *)
Definition zeroTime : Time := 0.

Definition Second : Duration := 1000000000.
Definition Minute : Duration := 60 * Second.
Definition Hour : Duration := 60 * Minute.

Definition saturate (d : Z) : Duration :=
  if d <? int_min then int_min
  else if int_max <? d then int_max
  else d.

(** [t.Sub(u)], [time.Since(t)], [t.Add(d)], [t.After(u)], [t.Before(u)]. *)
Definition Sub (t u : Time) : Duration := saturate (t - u).
Definition Since (now t : Time) : Duration := Sub now t.
Definition Add (t : Time) (d : Duration) : Time := t + d.
Definition After (t u : Time) : bool := u <? t.
Definition Before (t u : Time) : bool := t <? u.

(** Log lines: the level and the message of a [slog] call. *)
Inductive level := Debug | Info | Warn | Error.
Definition logline : Type := level * string.

End Go.

(** ** The circuit breaker *)

Module CircuitBreaker.
Import Go.
Local Open Scope Z_scope.

Inductive CircuitState := StateClosed | StateOpen | StateHalfOpen.

#[global] Instance CircuitState_eq_dec : EqDecision CircuitState.
Proof. solve_decision. Defined.

Record t := mk {
  state : CircuitState;
  failures : Z;
  successes : Z;
  lastFailure : Time;
  threshold : Z;
  resetTimeout : Duration;
  halfOpenMax : Z;
  lastStateChange : Time
}.

Definition NewCircuitBreaker (threshold : Z) (resetTimeout : Duration) : t :=
  {| state := StateClosed;
     failures := 0;
     successes := 0;
     lastFailure := zeroTime;
     threshold := threshold;
     resetTimeout := resetTimeout;
     halfOpenMax := 3;
     lastStateChange := zeroTime |}.

(** Field updates, one per assignment of the source. *)
Definition set_state (s : CircuitState) (cb : t) : t :=
  mk s (failures cb) (successes cb) (lastFailure cb) (threshold cb)
     (resetTimeout cb) (halfOpenMax cb) (lastStateChange cb).
Definition set_failures (n : Z) (cb : t) : t :=
  mk (state cb) n (successes cb) (lastFailure cb) (threshold cb)
     (resetTimeout cb) (halfOpenMax cb) (lastStateChange cb).
Definition set_successes (n : Z) (cb : t) : t :=
  mk (state cb) (failures cb) n (lastFailure cb) (threshold cb)
     (resetTimeout cb) (halfOpenMax cb) (lastStateChange cb).
Definition set_lastFailure (now : Time) (cb : t) : t :=
  mk (state cb) (failures cb) (successes cb) now (threshold cb)
     (resetTimeout cb) (halfOpenMax cb) (lastStateChange cb).
Definition set_lastStateChange (now : Time) (cb : t) : t :=
  mk (state cb) (failures cb) (successes cb) (lastFailure cb) (threshold cb)
     (resetTimeout cb) (halfOpenMax cb) now.

Definition State (cb : t) : CircuitState := state cb.

Definition Allow (now : Time) (cb : t) : bool * t :=
  match state cb with
  | StateClosed => (true, cb)
  | StateOpen =>
      if resetTimeout cb <? Since now (lastFailure cb) then
        (true,
         set_lastStateChange now (set_successes 0 (set_state StateHalfOpen cb)))
      else (false, cb)
  | StateHalfOpen => (successes cb <? halfOpenMax cb, cb)
  end.

Definition RecordSuccess (now : Time) (cb : t) : t :=
  match state cb with
  | StateClosed => set_failures 0 cb
  | StateHalfOpen =>
      let cb := set_successes (incr (successes cb)) cb in
      if halfOpenMax cb <=? successes cb then
        set_lastStateChange now (set_failures 0 (set_state StateClosed cb))
      else cb
  | StateOpen => cb
  end.

Definition RecordFailure (now : Time) (cb : t) : t :=
  let cb := set_lastFailure now cb in
  match state cb with
  | StateClosed =>
      let cb := set_failures (incr (failures cb)) cb in
      if threshold cb <=? failures cb then
        set_lastStateChange now (set_state StateOpen cb)
      else cb
  | StateHalfOpen => set_lastStateChange now (set_state StateOpen cb)
  | StateOpen => cb
  end.

Definition Reset (now : Time) (cb : t) : t :=
  set_lastStateChange now
    (set_successes 0 (set_failures 0 (set_state StateClosed cb))).

Definition IsOpen (cb : t) : bool := bool_decide (state cb = StateOpen).

Definition Stats (cb : t) : CircuitState * Z * Time :=
  (state cb, failures cb, lastFailure cb).

(** A run of calls of one method, one clock reading per call: the breaker
    after each call, oldest first. *)
Fixpoint run (step : Time -> t -> t) (ts : list Time) (cb : t) : list t :=
  match ts with
  | [] => []
  | now :: ts => let cb := step now cb in cb :: run step ts cb
  end.

(** The breaker after the whole run. *)
Definition after (step : Time -> t -> t) (ts : list Time) (cb : t) : t :=
  fold_left (fun cb now => step now cb) ts cb.

(** The answers of a run of [Allow] calls, and the breaker after it. *)
Fixpoint allows (ts : list Time) (cb : t) : list bool * t :=
  match ts with
  | [] => ([], cb)
  | now :: ts =>
      let '(ok, cb) := Allow now cb in
      let '(oks, cb) := allows ts cb in
      (ok :: oks, cb)
  end.

(** How many calls of a run moved the breaker into [StateOpen], [prev]
    being the state before the run. *)
Fixpoint opened (prev : CircuitState) (trace : list t) : nat :=
  match trace with
  | [] => 0%nat
  | cb :: trace =>
      ((if bool_decide (prev <> StateOpen /\ state cb = StateOpen)
        then 1 else 0) + opened (state cb) trace)%nat
  end.

(** The methods that change a breaker, and histories of calls to them. *)
Inductive method := CallAllow | CallSuccess | CallFailure | CallReset.

Definition apply (cb : t) (c : method * Time) : t :=
  match c.1 with
  | CallAllow => (Allow c.2 cb).2
  | CallSuccess => RecordSuccess c.2 cb
  | CallFailure => RecordFailure c.2 cb
  | CallReset => Reset c.2 cb
  end.

Definition history (cs : list (method * Time)) (cb : t) : t :=
  fold_left apply cs cb.

(** What a breaker made by [NewCircuitBreaker] satisfies, whatever has been
    called on it: the budget is three, and a half-open breaker has counted
    fewer successes than that. *)
Definition probing (cb : t) : Prop :=
  halfOpenMax cb = 3
  /\ (state cb = StateHalfOpen -> 0 <= successes cb < 3).

(** The outcome of a guarded call, as the caller reports it to the breaker:
    [true] for a success. *)
Definition record (cb : t) (o : bool * Time) : t :=
  if o.1 then RecordSuccess o.2 cb else RecordFailure o.2 cb.

(** The longest run of failures in a row in a series of outcomes, [cur]
    failures in a row coming before the series. *)
Fixpoint worst (cur : nat) (outcomes : list bool) : nat :=
  match outcomes with
  | [] => cur
  | true :: outcomes => Nat.max cur (worst 0 outcomes)
  | false :: outcomes => worst (S cur) outcomes
  end.

End CircuitBreaker.

(** ** The fallback cache *)

Module FallbackCache.
Import Go.
Local Open Scope Z_scope.

Record fallbackEntry := mkEntry {
  data : list byte;
  expiresAt : Time
}.

Record t := mk {
  entries : gmap string fallbackEntry;
  maxSize : Z
}.

(** [go fc.cleanup()] starts the sweep; its ticks are [cleanup] below, run
    by whoever runs the store. *)
Definition NewFallbackCache (maxSize : Z) : t :=
  {| entries := ∅; maxSize := maxSize |}.

(** An order in which [range] may visit the entries of a map. *)
Definition range_of (m : gmap string fallbackEntry)
    (order : list (string * fallbackEntry)) : Prop :=
  order ≡ₚ map_to_list m.

(** [Get] holds the read lock only; it gives the store back as it was. *)
Definition Get (now : Time) (key : string) (fc : t) : option (list byte) * t :=
  match entries fc !! key with
  | None => (None, fc)
  | Some entry =>
      if After now (expiresAt entry) then (None, fc)
      else (Some (data entry), fc)
  end.

(** One round of the loop of [evictOldest]: the pair is
    [(oldestKey, oldestTime)]. *)
Definition scan (acc : string * Time) (ke : string * fallbackEntry)
    : string * Time :=
  if bool_decide (acc.1 = "") || Before (expiresAt ke.2) acc.2
  then (ke.1, expiresAt ke.2)
  else acc.

Definition evictOldest (order : list (string * fallbackEntry)) (fc : t) : t :=
  let oldest := fold_left scan order ("", zeroTime) in
  if bool_decide (oldest.1 ≠ "")
  then {| entries := delete oldest.1 (entries fc); maxSize := maxSize fc |}
  else fc.

(** [Set] of the source ([Set] is a sort in Rocq). *)
Definition Set_ (now : Time) (order : list (string * fallbackEntry))
    (key : string) (data : list byte) (ttl : Duration) (fc : t) : t :=
  let fc :=
    if maxSize fc <=? Z.of_nat (size (entries fc))
    then evictOldest order fc else fc in
  {| entries :=
       <[key := {| data := data; expiresAt := Add now ttl |}]> (entries fc);
     maxSize := maxSize fc |}.

Definition Delete (key : string) (fc : t) : t :=
  {| entries := delete key (entries fc); maxSize := maxSize fc |}.

(** One tick of the ticker of [cleanup] (every five minutes). *)
Definition sweep (now : Time) (m : gmap string fallbackEntry)
    (ke : string * fallbackEntry) : gmap string fallbackEntry :=
  if After now (expiresAt ke.2) then delete ke.1 m else m.

Definition cleanup (now : Time) (order : list (string * fallbackEntry))
    (fc : t) : t :=
  {| entries := fold_left (sweep now) order (entries fc);
     maxSize := maxSize fc |}.

Definition cleanupInterval : Duration := 5 * Minute.

(** The operations on a store, and runs of them. *)
Inductive op :=
| OpGet (now : Time) (key : string)
| OpSet (now : Time) (order : list (string * fallbackEntry))
        (key : string) (data : list byte) (ttl : Duration)
| OpDelete (key : string)
| OpCleanup (now : Time) (order : list (string * fallbackEntry)).

Definition step (fc : t) (o : op) : t :=
  match o with
  | OpGet now key => (Get now key fc).2
  | OpSet now order key data ttl => Set_ now order key data ttl fc
  | OpDelete key => Delete key fc
  | OpCleanup now order => cleanup now order fc
  end.

(** An operation whose order of visit is one of the store it runs on, and
    whose key, when it writes one, is not the empty string. *)
Definition proper (fc : t) (o : op) : Prop :=
  match o with
  | OpSet _ order key _ _ => range_of (entries fc) order /\ key <> ""
  | OpCleanup _ order => range_of (entries fc) order
  | _ => True
  end.

Fixpoint proper_run (fc : t) (os : list op) : Prop :=
  match os with
  | [] => True
  | o :: os => proper fc o /\ proper_run (step fc o) os
  end.

End FallbackCache.

(** ** The cache facade *)

Module Cache.
Import Go.
Local Open Scope Z_scope.

Definition defaultExpiration : Duration := 168 * Hour.
Definition fallbackMaxSize : Z := 10000.
Definition cbThreshold : Z := 5.
Definition cbResetTimeout : Duration := 30 * Second.

(** Errors of the redis client: [redis.Nil] (the key is absent) or another
    error. *)
Inductive redisErr := RedisNil | RedisFailure (msg : string).

(** Errors [Get], [Set] and [Delete] return. *)
Inductive error :=
| ErrOpenNoFallback          (* circuit breaker open and key not in fallback *)
| ErrRedis (e : redisErr)    (* the error of the client as it is *)
| ErrWith (e : redisErr).    (* errutil.With(err) *)

(** The calls made to the redis client. *)
Inductive call :=
| CallGet (key : string)
| CallSet (key : string) (data : list byte) (expiration : Duration)
| CallDel (key : string).

(** The redis client, a collaborator: a state [R] of the server and what
    each command answers. *)
Class RedisClient (R : Type) := {
  redis_get : string -> R -> (redisErr + list byte) * R;
  redis_set : string -> list byte -> Duration -> R -> option redisErr * R;
  redis_del : string -> R -> option redisErr * R
}.

Section WithClient.
Context {R : Type} {client : RedisClient R}.

Record t := mk {
  c : R;                       (* the server behind the client *)
  calls : list call;           (* the commands sent so far, oldest first *)
  l : list logline;            (* what the logger has written *)
  cb : CircuitBreaker.t;
  fallback : FallbackCache.t
}.

Definition warnOpened (cb : CircuitBreaker.t) (l : list logline)
    : list logline :=
  if CircuitBreaker.IsOpen cb
  then l ++ [(Warn, "redis circuit breaker opened")]
  else l.

Definition Get (now : Time) (order : list (string * FallbackCache.fallbackEntry))
    (key : string) (ch : t) : (error + list byte) * t :=
  let '(ok, cb1) := CircuitBreaker.Allow now (cb ch) in
  if negb ok then
    match FallbackCache.Get now key (fallback ch) with
    | (Some data, fb) => (inr data, mk (c ch) (calls ch) (l ch) cb1 fb)
    | (None, fb) => (inl ErrOpenNoFallback, mk (c ch) (calls ch) (l ch) cb1 fb)
    end
  else
    let '(res, r) := redis_get key (c ch) in
    let calls1 := calls ch ++ [CallGet key] in
    match res with
    | inl err =>
        let '(cb2, l2) :=
          match err with
          | RedisNil => (cb1, l ch)
          | _ =>
              let cb2 := CircuitBreaker.RecordFailure now cb1 in
              (cb2, warnOpened cb2 (l ch))
          end in
        match FallbackCache.Get now key (fallback ch) with
        | (Some data, fb) => (inr data, mk r calls1 l2 cb2 fb)
        | (None, fb) => (inl (ErrRedis err), mk r calls1 l2 cb2 fb)
        end
    | inr data =>
        let cb2 := CircuitBreaker.RecordSuccess now cb1 in
        let fb :=
          FallbackCache.Set_ now order key data defaultExpiration (fallback ch) in
        (inr data, mk r calls1 (l ch) cb2 fb)
    end.

Definition Set_ (now : Time) (order : list (string * FallbackCache.fallbackEntry))
    (key : string) (data : list byte) (expiration : Duration) (ch : t)
    : option error * t :=
  let expiration :=
    if expiration =? 0 then defaultExpiration else expiration in
  let fb := FallbackCache.Set_ now order key data expiration (fallback ch) in
  let '(ok, cb1) := CircuitBreaker.Allow now (cb ch) in
  if negb ok then (None, mk (c ch) (calls ch) (l ch) cb1 fb)
  else
    let '(res, r) := redis_set key data expiration (c ch) in
    let calls1 := calls ch ++ [CallSet key data expiration] in
    match res with
    | Some err =>
        let cb2 := CircuitBreaker.RecordFailure now cb1 in
        (Some (ErrWith err), mk r calls1 (warnOpened cb2 (l ch)) cb2 fb)
    | None =>
        (None, mk r calls1 (l ch) (CircuitBreaker.RecordSuccess now cb1) fb)
    end.

Definition Delete (now : Time) (key : string) (ch : t) : option error * t :=
  let fb := FallbackCache.Delete key (fallback ch) in
  let '(ok, cb1) := CircuitBreaker.Allow now (cb ch) in
  if negb ok then (None, mk (c ch) (calls ch) (l ch) cb1 fb)
  else
    let '(res, r) := redis_del key (c ch) in
    let calls1 := calls ch ++ [CallDel key] in
    match res with
    | Some err =>
        (Some (ErrWith err),
         mk r calls1 (l ch) (CircuitBreaker.RecordFailure now cb1) fb)
    | None =>
        (None, mk r calls1 (l ch) (CircuitBreaker.RecordSuccess now cb1) fb)
    end.

(** The expiration [Set] works with: the default one for zero. *)
Definition effective (expiration : Duration) : Duration :=
  if expiration =? 0 then defaultExpiration else expiration.

(** [NewCache], once the URL has parsed and the client [r] exists. *)
Definition NewCache (r : R) : t :=
  {| c := r;
     calls := [];
     l := [];
     cb := CircuitBreaker.NewCircuitBreaker cbThreshold cbResetTimeout;
     fallback := FallbackCache.NewFallbackCache fallbackMaxSize |}.

(** The client fails whatever it is asked to read. *)
Definition get_always_fails : Prop :=
  forall key r, exists err, (redis_get key r).1 = inl err.

End WithClient.

Arguments t R : clear implicits.

(** A client whose server is out of reach: every command fails. *)
Definition unreachable : RedisClient unit :=
  {| redis_get _ r := (inl (RedisFailure "connection refused"), r);
     redis_set _ _ _ r := (Some (RedisFailure "connection refused"), r);
     redis_del _ r := (Some (RedisFailure "connection refused"), r) |}.

(** A server that answers one read and is then out of reach: the state says
    whether it is still up. *)
Definition flaky (data : list byte) : RedisClient bool :=
  {| redis_get _ (up : bool) :=
       if up then (inr data, false)
       else (inl (RedisFailure "connection refused"), false);
     redis_set _ _ _ up := (Some (RedisFailure "connection refused"), up);
     redis_del _ up := (Some (RedisFailure "connection refused"), up) |}.

(** A server that is up and holds no key. *)
Definition vacant : RedisClient unit :=
  {| redis_get _ r := (inl RedisNil, r);
     redis_set _ _ _ r := (None, r);
     redis_del _ r := (None, r) |}.

(** Runs of writes and of reads. *)
Record write := mkWrite {
  w_now : Time;
  w_order : list (string * FallbackCache.fallbackEntry);
  w_key : string;
  w_data : list byte;
  w_expiration : Duration
}.

Record read := mkRead {
  r_now : Time;
  r_order : list (string * FallbackCache.fallbackEntry);
  r_key : string
}.

Section Runs.
Context {R : Type} {client : RedisClient R}.

Definition Sets (ws : list write) (ch : t R) : t R :=
  fold_left
    (fun ch w =>
       (Set_ (w_now w) (w_order w) (w_key w) (w_data w) (w_expiration w) ch).2)
    ws ch.

Definition Gets (rs : list read) (ch : t R) : t R :=
  fold_left (fun ch r => (Get (r_now r) (r_order r) (r_key r) ch).2) rs ch.

(** The client fails whatever it is asked to write. *)
Definition set_always_fails : Prop :=
  forall key data expiration r,
    exists err, (redis_set key data expiration r).1 = Some err.

(** The client finds no key, and says so. *)
Definition get_always_nil : Prop :=
  forall key r, (redis_get key r).1 = inl RedisNil.

End Runs.

End Cache.

(** ** Channels *)

Module Chan.

(** A Go channel of capacity [cap]: the buffered values, oldest first, and
    the receivers parked on it. A send to a channel with a parked receiver
    hands the value to it past the buffer ([handed] keeps what went that
    way); receivers park on an empty buffer only. No sender parks: the
    sends embedded here are the arms of a [select] with a [default]. *)
Record t (A : Type) := mk {
  buf : list A;
  cap : nat;
  recvq : nat;
  handed : list A
}.
Arguments mk {A}.
Arguments buf {A}.
Arguments cap {A}.
Arguments recvq {A}.
Arguments handed {A}.

Section Ops.
Context {A : Type}.

(** [make(chan A, n)]; [make(chan A)] is [make 0]. *)
Definition make (n : nat) : t A :=
  {| buf := []; cap := n; recvq := 0; handed := [] |}.

Definition len (ch : t A) : nat := length (buf ch).

(** Whether the arm [ch <- v] of a [select] can go ahead. *)
Definition can_send (ch : t A) : bool :=
  (0 <? recvq ch) || (length (buf ch) <? cap ch).

(** [ch <- v], when it can go ahead. *)
Definition send (v : A) (ch : t A) : t A :=
  if 0 <? recvq ch
  then mk (buf ch) (cap ch) (recvq ch - 1) (handed ch ++ [v])
  else mk (buf ch ++ [v]) (cap ch) (recvq ch) (handed ch).

(** The arm [<-ch] of a [select]: the oldest buffered value, if any. *)
Definition recv (ch : t A) : option (A * t A) :=
  match buf ch with
  | [] => None
  | v :: rest => Some (v, mk rest (cap ch) (recvq ch) (handed ch))
  end.

(** A receiver finds the buffer empty and waits. *)
Definition park (ch : t A) : t A :=
  mk (buf ch) (cap ch) (S (recvq ch)) (handed ch).

(** What every channel satisfies: the buffer is within the capacity, and
    receivers wait only while it is empty. *)
Definition wf (ch : t A) : Prop :=
  length (buf ch) <= cap ch /\ (0 < recvq ch -> buf ch = []).

End Ops.
End Chan.

(** ** The bot: guild contexts, registry, enqueue, monitor *)

Module Bot.
Import Go.

Inductive EventType :=
| EventTypeGuildUpdate
| EventTypeInteraction
| EventTypeMsgDeletion
| EventTypeVoiceUpdate.

(** The decoded gateway structs ([dg.GuildUpdate] and the like) belong to
    the gateway library; here each is an identifier. *)
Definition payload : Type := string.

Record GuildEvent := mkEvent {
  Type_ : EventType;
  GuildUpdate : option payload;
  Interaction : option payload;
  MsgDeletion : option payload;
  VoiceUpdate : option payload
}.

(** [Context] is a child of the context of the bot: [cancelled] says that
    its own [Cancel] has been called. *)
Record GuildContext := mkCtx {
  cancelled : bool;
  Events : Chan.t GuildEvent;
  Relay : Chan.t string
}.

Inductive goroutine :=
| GoLoad (guildID : string)
| GoDispatch (guildID : string).

Record t := mk {
  done : bool;                            (* b.ctx is cancelled *)
  contexts : gmap string GuildContext;
  l : list logline;
  started : list goroutine                (* goroutines started, oldest first *)
}.

Definition set_contexts (m : gmap string GuildContext) (b : t) : t :=
  mk (done b) m (l b) (started b).
Definition log (line : logline) (b : t) : t :=
  mk (done b) (contexts b) (l b ++ [line]) (started b).
Definition go (g : goroutine) (b : t) : t :=
  mk (done b) (contexts b) (l b) (started b ++ [g]).

(** [<-ctx.Context.Done()] can go ahead. *)
Definition Done (b : t) (ctx : GuildContext) : bool := cancelled ctx || done b.

Definition ensure (guildID : string) (b : t) : GuildContext * t :=
  match contexts b !! guildID with
  | Some guildCtx => (guildCtx, b)
  | None =>
      (* under the write lock *)
      match contexts b !! guildID with
      | Some guildCtx => (guildCtx, b)
      | None =>
          let guildCtx :=
            {| cancelled := false;
               Events := Chan.make 1000;
               Relay := Chan.make 500 |} in
          (guildCtx, set_contexts (<[guildID := guildCtx]> (contexts b)) b)
      end
  end.

(** [select] picks among the arms that can go ahead; [pick] settles the
    choice when both the send and [Done] can. *)
Definition enqueue (pick : bool) (guildID : string) (event : GuildEvent)
    (b : t) : t :=
  match contexts b !! guildID with
  | None => log (Warn, "attempted to enqueue event for unknown guild") b
  | Some ctx =>
      let deliver :=
        set_contexts
          (<[guildID := mkCtx (cancelled ctx) (Chan.send event (Events ctx))
                              (Relay ctx)]> (contexts b)) b in
      let drop := log (Debug, "dropped event for cancelled guild context") b in
      match Chan.can_send (Events ctx), Done b ctx with
      | true, true => if pick then deliver else drop
      | true, false => deliver
      | false, true => drop
      | false, false => log (Warn, "event channel full, dropping event") b
      end
  end.

(** The outcomes of [enqueue], [b] being the bot before and [b'] after:
    the event went to the queue of the guild; it was dropped with one of
    the three messages. *)
Definition delivered (guildID : string) (event : GuildEvent) (b b' : t)
    : Prop :=
  exists ctx,
    contexts b !! guildID = Some ctx
    /\ b' = set_contexts
              (<[guildID := mkCtx (cancelled ctx)
                                  (Chan.send event (Events ctx))
                                  (Relay ctx)]> (contexts b)) b.
Definition droppedCancelled (b b' : t) : Prop :=
  b' = log (Debug, "dropped event for cancelled guild context") b.
Definition droppedFull (b b' : t) : Prop :=
  b' = log (Warn, "event channel full, dropping event") b.
Definition droppedUnknown (b b' : t) : Prop :=
  b' = log (Warn, "attempted to enqueue event for unknown guild") b.

(** What the database answers to [register]: the result of [GetGuild], and
    whether the write that follows it ([PutGuild] or [Update]) fails. *)
Inductive getGuild := GuildStored | GuildNoRows | GuildError.
Record dbAnswers := mkDb { get : getGuild; writeFails : bool }.

(** [existing.Cancel()] cancels a context the registry then forgets: the
    new entry takes its place. *)
Definition register (db : dbAnswers) (gID : string) (b : t) : t :=
  let guildCtx :=
    {| cancelled := false; Events := Chan.make 0; Relay := Chan.make 0 |} in
  let b := set_contexts (<[gID := guildCtx]> (contexts b)) b in
  let finish (b : t) :=
    go (GoDispatch gID) (go (GoLoad gID) (log (Info, "registered guild") b)) in
  match get db with
  | GuildNoRows =>
      if writeFails db then log (Error, "error storing new guild") b
      else finish b
  | GuildError => log (Error, "error fetching guild") b
  | GuildStored =>
      if writeFails db then log (Error, "error updating guild") b
      else finish b
  end.

Definition remove (gID : string) (b : t) : t :=
  let b :=
    match contexts b !! gID with
    | Some _ => set_contexts (delete gID (contexts b)) b
    | None => b
    end in
  log (Info, "removed guild") b.

(** The variables of [monitor] that live across ticks. *)
Record monitorVars := mkVars {
  lastWarningTime : Time;
  consecutiveWarnings : Z
}.

(** The loop [for i := 0; i < 500; i++] of [monitor], [fuel] bounding its
    rounds: what is left of the channel, the log, and [channelSize]. *)
Fixpoint monitorScan (fuel : nat) (i : Z) (ev : Chan.t GuildEvent)
    (l : list logline) (channelSize : Z)
    : Chan.t GuildEvent * list logline * Z :=
  match fuel with
  | O => (ev, l, channelSize)
  | S fuel =>
      if (i <? 500)%Z then
        match Chan.recv ev with
        | Some (_, ev) =>
            monitorScan fuel (i + 1)%Z ev
              (l ++ [(Error, "unexpectedly removed event during channel monitoring")])
              (incr channelSize)
        | None => monitorScan fuel (500 + 1)%Z ev l channelSize
        end
      else (ev, l, channelSize)
  end.

(** One tick of the ticker of [monitor]. [above60 len cap] stands for the
    floating-point test
    [float64(currentLen) / float64(capacity) * 100 > 60]. *)
Definition monitorTick (above60 : nat -> nat -> bool) (now : Time)
    (vars : monitorVars) (ctx : GuildContext) (l : list logline)
    : monitorVars * GuildContext * list logline :=
  let '(ev, l, _) := monitorScan 501 0 (Events ctx) l 0 in
  let ctx := mkCtx (cancelled ctx) ev (Relay ctx) in
  let currentLen := Chan.len ev in
  let capacity := Chan.cap ev in
  if above60 currentLen capacity then
    let vars :=
      if (5 * Minute <? Sub now (lastWarningTime vars))%Z
      then mkVars now 0 else vars in
    let vars :=
      mkVars (lastWarningTime vars) (incr (consecutiveWarnings vars)) in
    let l := l ++ [(Warn, "event channel filling up")] in
    let l :=
      if (3 <=? consecutiveWarnings vars)%Z
      then l ++ [(Error, "potential stuck handler detected; event channel consistently full")]
      else l in
    (vars, ctx, l)
  else (vars, ctx, l).

(** The registry binds every guild to queues of these capacities. *)
Definition capacities (events relay : nat) (b : t) : Prop :=
  forall guildID ctx,
    contexts b !! guildID = Some ctx ->
    Chan.cap (Events ctx) = events /\ Chan.cap (Relay ctx) = relay.

(** The bot [NewBot] returns, as far as the registry goes. *)
Definition NewBot : t :=
  {| done := false; contexts := ∅; l := []; started := [] |}.

(** An interaction the gateway hands to [enqueue]. *)
Definition interaction (i : payload) : GuildEvent :=
  {| Type_ := EventTypeInteraction;
     GuildUpdate := None;
     Interaction := Some i;
     MsgDeletion := None;
     VoiceUpdate := None |}.

(** A run of [enqueue] calls for one guild, each with the pick of its
    [select]. *)
Definition enqueues (guildID : string) (evs : list (bool * GuildEvent))
    (b : t) : t :=
  fold_left (fun b pe => enqueue pe.1 guildID pe.2 b) evs b.

(** One tick of the ticker of [status] (every ten minutes). [count] is what
    [Count] answers when the tick asks ([None] for an error), [updateFails]
    whether [UpdateStatusComplex] does; [s] is the counter of the loop,
    [sent] the status texts sent so far, oldest first. *)
Definition statusTick (count : option Z) (updateFails : bool)
    (s : Z) (sent : list string) (l : list logline)
    : Z * list string * list logline :=
  let update (s : Z) (msg : string) :=
    (incr s, sent ++ [msg],
     if updateFails then l ++ [(Error, "error setting bot status")] else l) in
  if (s =? 0)%Z then
    match count with
    | None => (s, sent, l ++ [(Error, "error counting all known users")])
    | Some n => update s ("Helping " +:+ pretty n +:+ " servers")
    end
  else if (s =? 1)%Z then
    match count with
    | None => (s, sent, l ++ [(Error, "error counting activities")])
    | Some n => update s (pretty n +:+ " commands handled")
    end
  else update (-1)%Z "".

End Bot.

(** ** The utilities: command validation, option maps, durations as text *)

Module Utils.
Import Go.

(** [s[:n]] on a Go string: its first [n] bytes. The source takes it only
    of strings longer than [n]. *)
Fixpoint upto (n : nat) (s : string) : string :=
  match n, s with
  | S n, String a s => String a (upto n s)
  | _, _ => ""
  end.

Definition maxCommandNameLength : nat := 32.
Definition maxCommandDescriptionLength : nat := 100.
Definition maxOptionsPerCommand : nat := 25.
Definition maxChoicesPerOption : nat := 25.
Definition maxOptionNameLength : nat := 32.
Definition maxOptionDescLength : nat := 100.
Definition maxChoiceNameLength : nat := 100.
Definition maxChoiceValueLength : nat := 100.

(** The value of a choice is an [interface{}]: a string, or something else
    (a number), which validation leaves alone. *)
Inductive choiceValue := StringValue (s : string) | OtherValue (v : Z).

(** The fields of the gateway structs that validation reads and writes.
    Options and choices are pointers in the source: here each is an object
    of its own, and none is nil. *)
Record ApplicationCommandOptionChoice := mkChoice {
  choiceName : string;
  choiceValue_ : choiceValue
}.

Record ApplicationCommandOption := mkOption {
  optionName : string;
  optionDescription : string;
  optionChoices : list ApplicationCommandOptionChoice
}.

Record ApplicationCommand := mkCommand {
  commandName : string;
  commandDescription : string;
  commandOptions : list ApplicationCommandOption
}.

Record ValidationResult := mkResult {
  Command : ApplicationCommand;
  IsValid : bool;
  WasModified : bool;
  Errors : list string
}.

(** [WasModified] and [Errors] while validation runs;
    [result.WasModified = true] with [result.Errors = append(..., msg)]. *)
Definition notes : Type := bool * list string.
Definition note (msg : string) (st : notes) : notes := (true, st.2 ++ [msg]).

(** One round of the loop over the choices of an option. *)
Definition validateChoice (choice : ApplicationCommandOptionChoice)
    (st : notes) : ApplicationCommandOptionChoice * notes :=
  let '(name, st) :=
    if maxChoiceNameLength <? String.length (choiceName choice)
    then (upto maxChoiceNameLength (choiceName choice),
          note "Choice name was truncated" st)
    else (choiceName choice, st) in
  let '(value, st) :=
    match choiceValue_ choice with
    | StringValue strVal =>
        if maxChoiceValueLength <? String.length strVal
        then (StringValue (upto maxChoiceValueLength strVal),
              note "Choice value was truncated" st)
        else (StringValue strVal, st)
    | other => (other, st)
    end in
  (mkChoice name value, st).

(** A loop that validates the elements of a slice in place, one round
    each, in order. *)
Fixpoint each {A : Type} (round : A -> notes -> A * notes) (xs : list A)
    (st : notes) : list A * notes :=
  match xs with
  | [] => ([], st)
  | x :: xs =>
      let '(x, st) := round x st in
      let '(xs, st) := each round xs st in
      (x :: xs, st)
  end.

Definition validateChoices := each validateChoice.

(** One round of the loop over the options of the command. *)
Definition validateOption (opt : ApplicationCommandOption) (st : notes)
    : ApplicationCommandOption * notes :=
  let '(name, st) :=
    if maxOptionNameLength <? String.length (optionName opt)
    then (upto maxOptionNameLength (optionName opt),
          note "Option name was truncated" st)
    else (optionName opt, st) in
  let '(description, st) :=
    if maxOptionDescLength <? String.length (optionDescription opt)
    then (upto maxOptionDescLength (optionDescription opt),
          note "Option description was truncated" st)
    else (optionDescription opt, st) in
  let '(choices, st) :=
    if maxChoicesPerOption <? length (optionChoices opt)
    then (take maxChoicesPerOption (optionChoices opt),
          note "Excess choices were removed" st)
    else (optionChoices opt, st) in
  let '(choices, st) := validateChoices choices st in
  (mkOption name description choices, st).

Definition validateOptions := each validateOption.

(** [result.Command] is [cmd] itself, changed in place: the command in the
    result is also what the caller's [cmd] has become. *)
Definition ValidateCommand (cmd : ApplicationCommand) : ValidationResult :=
  let st : notes := (false, []) in
  let '(name, st) :=
    if maxCommandNameLength <? String.length (commandName cmd)
    then (upto maxCommandNameLength (commandName cmd),
          note "Command name was truncated" st)
    else (commandName cmd, st) in
  let '(description, st) :=
    if maxCommandDescriptionLength <? String.length (commandDescription cmd)
    then (upto maxCommandDescriptionLength (commandDescription cmd),
          note "Command description was truncated" st)
    else (commandDescription cmd, st) in
  let '(options, st) :=
    if maxOptionsPerCommand <? length (commandOptions cmd)
    then (take maxOptionsPerCommand (commandOptions cmd),
          note "Excess options were removed" st)
    else (commandOptions cmd, st) in
  let '(options, st) := validateOptions options st in
  {| Command := mkCommand name description options;
     IsValid := true;
     WasModified := st.1;
     Errors := st.2 |}.

(** Whether a choice, an option, a command is within the limits. *)
Definition fitsChoice (choice : ApplicationCommandOptionChoice) : bool :=
  (String.length (choiceName choice) <=? maxChoiceNameLength)
  && match choiceValue_ choice with
     | StringValue strVal => String.length strVal <=? maxChoiceValueLength
     | OtherValue _ => true
     end.

Definition fitsOption (opt : ApplicationCommandOption) : bool :=
  (String.length (optionName opt) <=? maxOptionNameLength)
  && (String.length (optionDescription opt) <=? maxOptionDescLength)
  && (length (optionChoices opt) <=? maxChoicesPerOption)
  && forallb fitsChoice (optionChoices opt).

Definition fits (cmd : ApplicationCommand) : bool :=
  (String.length (commandName cmd) <=? maxCommandNameLength)
  && (String.length (commandDescription cmd) <=? maxCommandDescriptionLength)
  && (length (commandOptions cmd) <=? maxOptionsPerCommand)
  && forallb fitsOption (commandOptions cmd).

(** What a round of validation does to one object, [fit] telling whether
    the object is within its limits: it leaves an object that is, sets the
    flag unless the object was, and appends messages, none if the object
    was and one or more if it was not. *)
Definition checks {A : Type} (fit : A -> bool)
    (round : A -> notes -> A * notes) : Prop :=
  forall x st,
    exists new,
      (round x st).2 = (st.1 || negb (fit x), st.2 ++ new)
      /\ fit (round x st).1 = true
      /\ (fit x = true -> (round x st).1 = x /\ new = [])
      /\ (fit x = false -> new <> []).

(** The command of [Ping.Metadata]. *)
Definition ping : ApplicationCommand :=
  mkCommand "ping" "Ping the backend" [].

(** An option of an interaction, as [MapOptions] sees it: its name, and the
    rest of it as an identifier. *)
Record InteractionOption := mkInteractionOption {
  Name : string;
  rest : string
}.

Definition MapOptions (os : list InteractionOption)
    : gmap string InteractionOption :=
  fold_left (fun om opt => <[Name opt := opt]> om) os ∅.

End Utils.

(** ** Durations as text *)

Module Format.
Import Go.
Local Open Scope Z_scope.

(** Arithmetic on [int64]: the exact result, wrapped. Division and
    remainder truncate toward zero ([Z.quot], [Z.rem]). *)
Definition add64 (a b : Z) : Z := wrap (a + b).
Definition sub64 (a b : Z) : Z := wrap (a - b).
Definition mul64 (a b : Z) : Z := wrap (a * b).
Definition neg64 (a : Z) : Z := wrap (- a).

(** [uint64(x)+uint64(x) < uint64(y)], of the [time] package. *)
Definition lessThanHalf (x y : Duration) : bool :=
  (x mod 2 ^ 64 + x mod 2 ^ 64) mod 2 ^ 64 <? y mod 2 ^ 64.

(** [d.Round(m)] of the [time] package: to the nearest multiple of [m],
    halves away from zero, the largest or smallest duration when the
    result does not fit. *)
Definition Round (d m : Duration) : Duration :=
  if m <=? 0 then d
  else
    let r := Z.rem d m in
    if d <? 0 then
      let r := neg64 r in
      if lessThanHalf r m then add64 d r
      else
        let d1 := add64 (sub64 d m) r in
        if d1 <? d then d1 else int_min
    else
      if lessThanHalf r m then sub64 d r
      else
        let d1 := sub64 (add64 d m) r in
        if d <? d1 then d1 else int_max.

(** [strings.Join]. *)
Fixpoint join (sep : string) (parts : list string) : string :=
  match parts with
  | [] => ""
  | [part] => part
  | part :: parts => part +:+ sep +:+ join sep parts
  end.

(** [if n > 0 { if n == 1 { append one } else { append "%d many" } }]. *)
Definition part (n : Z) (one many : string) (parts : list string)
    : list string :=
  if 0 <? n then
    if n =? 1 then parts ++ [one] else parts ++ [pretty n +:+ many]
  else parts.

(** [FormatDuration] from its second line on, [d] being rounded. *)
Definition formatRounded (d : Duration) : string :=
  let years := Z.quot d (365 * 24 * Hour) in
  let d := sub64 d (mul64 (mul64 (mul64 years 365) 24) Hour) in
  let months := Z.quot d (30 * 24 * Hour) in
  let d := sub64 d (mul64 (mul64 (mul64 months 30) 24) Hour) in
  let weeks := Z.quot d (7 * 24 * Hour) in
  let d := sub64 d (mul64 (mul64 (mul64 weeks 7) 24) Hour) in
  let days := Z.quot d (24 * Hour) in
  let d := sub64 d (mul64 (mul64 days 24) Hour) in
  let h := Z.quot d Hour in
  let d := sub64 d (mul64 h Hour) in
  let m := Z.quot d Minute in
  let parts :=
    part m "1 minute" " minutes"
      (part h "1 hour" " hours"
         (part days "1 day" " days"
            (part weeks "1 week" " weeks"
               (part months "1 month" " months"
                  (part years "1 year" " years" []))))) in
  match parts with
  | [] => "0 minutes"
  | [only] => only
  | [first; second] => first +:+ " and " +:+ second
  | _ => join ", " (removelast parts) +:+ ", and " +:+ List.last parts ""
  end.

Definition FormatDuration (d : Duration) : string :=
  formatRounded (Round d Minute).

End Format.

(** * Properties *)

(** ** Go integers and time *)

Module GoFacts.
Import Go.
Local Open Scope Z_scope.

Lemma wrap_in_int x : in_int x -> wrap x = x.
Proof.
  unfold in_int, int_min, int_max, wrap. intros Hx.
  rewrite Z.mod_small; lia.
Qed.

Lemma incr_below x : 0 <= x < int_max -> incr x = x + 1.
Proof.
  intros Hx. unfold incr. apply wrap_in_int.
  unfold in_int, int_min, int_max in *. lia.
Qed.

Lemma After_spec t u : After t u = true <-> u < t.
Proof. unfold After. apply Z.ltb_lt. Qed.

Lemma After_false t u : After t u = false <-> t <= u.
Proof. unfold After. rewrite Z.ltb_ge. reflexivity. Qed.

Lemma Before_spec t u : Before t u = true <-> t < u.
Proof. unfold Before. apply Z.ltb_lt. Qed.

End GoFacts.

(** ** The circuit breaker *)

Module CircuitBreakerSpec.
Import Go GoFacts CircuitBreaker.
Local Open Scope Z_scope.

Lemma after_cons step now ts cb :
  after step (now :: ts) cb = after step ts (step now cb).
Proof. reflexivity. Qed.

Lemma run_cons step now ts cb :
  run step (now :: ts) cb = step now cb :: run step ts (step now cb).
Proof. reflexivity. Qed.

Lemma after_snoc step now ts cb :
  after step (ts ++ [now]) cb = step now (after step ts cb).
Proof. unfold after. rewrite fold_left_app. reflexivity. Qed.

(** A failure below the threshold keeps the breaker closed. *)
Lemma RecordFailure_below now cb :
  state cb = StateClosed ->
  0 <= failures cb -> failures cb + 1 < threshold cb -> threshold cb <= int_max ->
  RecordFailure now cb =
    mk StateClosed (failures cb + 1) (successes cb) now (threshold cb)
       (resetTimeout cb) (halfOpenMax cb) (lastStateChange cb).
Proof.
  intros Hs H0 Hlt Hmax. unfold RecordFailure. cbn. rewrite Hs. cbn.
  rewrite incr_below by lia.
  destruct (Z.leb_spec (threshold cb) (failures cb + 1)); [lia|].
  unfold set_failures, set_lastFailure. cbn. rewrite Hs. reflexivity.
Qed.

(** The failure that reaches the threshold opens it. *)
Lemma RecordFailure_reach now cb :
  state cb = StateClosed ->
  0 <= failures cb -> threshold cb <= failures cb + 1 -> failures cb < int_max ->
  RecordFailure now cb =
    mk StateOpen (failures cb + 1) (successes cb) now (threshold cb)
       (resetTimeout cb) (halfOpenMax cb) now.
Proof.
  intros Hs H0 Hle Hmax. unfold RecordFailure. cbn. rewrite Hs. cbn.
  rewrite incr_below by lia.
  destruct (Z.leb_spec (threshold cb) (failures cb + 1)); [|lia].
  reflexivity.
Qed.

Lemma failures_run ts : forall cb,
  state cb = StateClosed ->
  0 <= failures cb ->
  Z.of_nat (length ts) = threshold cb - failures cb ->
  (1 <= length ts)%nat ->
  threshold cb <= int_max ->
  let cb' := after RecordFailure ts cb in
  map state (run RecordFailure ts cb)
    = replicate (length ts - 1) StateClosed ++ [StateOpen]
  /\ opened StateClosed (run RecordFailure ts cb) = 1%nat
  /\ state cb' = StateOpen
  /\ Some (lastFailure cb') = last ts
  /\ resetTimeout cb' = resetTimeout cb.
Proof.
  induction ts as [|now ts IH]; intros cb Hs H0 Hlen H1 Hmax; cbn in H1; [lia|].
  destruct ts as [|now' ts].
  - cbn in Hlen. cbn.
    rewrite (RecordFailure_reach now cb Hs) by lia. cbn. auto.
  - rewrite after_cons, run_cons.
    pose proof (RecordFailure_below now cb Hs H0) as Hb.
    cbn [length] in Hlen.
    rewrite Hb by lia.
    set (cb1 := mk _ _ _ _ _ _ _ _).
    destruct (IH cb1) as (Ha & Hb' & Hc & Hd & He);
      [ reflexivity
      | subst cb1; cbn [failures]; lia
      | subst cb1; cbn [failures threshold length] in *; lia
      | cbn [length]; lia
      | exact Hmax |].
    cbn zeta in Hc, Hd, He.
    repeat split.
    + cbn [map]. rewrite Ha. cbn [length state cb1].
      replace (S (S (length ts)) - 1)%nat with (S (S (length ts) - 1)) by lia.
      reflexivity.
    + cbn [opened state cb1]. rewrite Hb'. reflexivity.
    + exact Hc.
    + rewrite Hd. reflexivity.
    + rewrite He. reflexivity.
Qed.

(** While the reset timeout has not passed, an open breaker refuses. *)
Lemma allows_open us : forall cb,
  state cb = StateOpen ->
  Forall (fun u => Since u (lastFailure cb) <= resetTimeout cb) us ->
  allows us cb = (replicate (length us) false, cb).
Proof.
  induction us as [|u us IH]; intros cb Hs Hall; [reflexivity|].
  inversion Hall as [|? ? Hu Hus]; subst.
  cbn [allows]. unfold Allow. rewrite Hs.
  destruct (Z.ltb_spec (resetTimeout cb) (Since u (lastFailure cb))); [lia|].
  rewrite (IH cb Hs Hus). reflexivity.
Qed.

(** C2. From the closed state with no failure counted, a run of as many
    [RecordFailure] calls as the threshold says opens the breaker once, at
    its last call: the breaker is closed after every earlier call and open
    after the last one. From then on every [Allow] made while the time
    since the last failure is within the reset timeout answers false and
    leaves the breaker as it is. *)
Theorem threshold_failures_open_once (cb : t) (ts : list Time) :
  state cb = StateClosed ->
  failures cb = 0 ->
  1 <= threshold cb <= int_max ->
  length ts = Z.to_nat (threshold cb) ->
  let cb' := after RecordFailure ts cb in
  map state (run RecordFailure ts cb)
    = replicate (length ts - 1) StateClosed ++ [StateOpen]
  /\ opened (state cb) (run RecordFailure ts cb) = 1%nat
  /\ state cb' = StateOpen
  /\ Some (lastFailure cb') = last ts
  /\ forall us,
       Forall (fun u => Since u (lastFailure cb') <= resetTimeout cb') us ->
       allows us cb' = (replicate (length us) false, cb').
Proof.
  intros Hs Hf Hth Hlen cb'.
  destruct (failures_run ts cb) as (Ha & Hb & Hc & Hd & He); try lia; try done.
  rewrite Hs. repeat split; try done.
  intros us Hus. apply allows_open; done.
Qed.

Lemma threshold_failures_open_once_witness :
  let cb := NewCircuitBreaker 2 (30 * Second) in
  let cb' := after RecordFailure [10; 20] cb in
  map state (run RecordFailure [10; 20] cb) = [StateClosed; StateOpen]
  /\ opened (state cb) (run RecordFailure [10; 20] cb) = 1%nat
  /\ state cb' = StateOpen
  /\ Some (lastFailure cb') = Some 20
  /\ allows [21; 30 * Second + 20] cb' = ([false; false], cb').
Proof.
  intros cb cb'.
  destruct (threshold_failures_open_once cb [10; 20])
    as (Ha & Hb & Hc & Hd & He);
    [reflexivity | reflexivity | unfold int_max; cbn; lia | reflexivity |].
  split; [exact Ha|]. split; [exact Hb|]. split; [exact Hc|].
  split; [exact Hd|].
  apply (He [21; 30 * Second + 20]).
  repeat constructor; vm_compute; discriminate.
Defined.

(** Threshold two: two failures open the breaker, and [Reset] closes it
    with no failure counted. *)
Example reset_scenario :
  let cb := after RecordFailure [10; 20] (NewCircuitBreaker 2 (30 * Second)) in
  IsOpen cb = true
  /\ state (Reset 25 cb) = StateClosed
  /\ failures (Reset 25 cb) = 0.
Proof. cbn zeta. repeat split. Qed.

(** The timeout over, [Allow] moves an open breaker to half-open. *)
Lemma Allow_open_elapsed now cb :
  state cb = StateOpen ->
  resetTimeout cb < Since now (lastFailure cb) ->
  Allow now cb =
    (true,
     mk StateHalfOpen (failures cb) 0 (lastFailure cb) (threshold cb)
        (resetTimeout cb) (halfOpenMax cb) now).
Proof.
  intros Hs Hlt. unfold Allow. rewrite Hs.
  destruct (Z.ltb_spec (resetTimeout cb) (Since now (lastFailure cb))); [|lia].
  reflexivity.
Qed.

(** A success short of the trial budget keeps the breaker half-open. *)
Lemma RecordSuccess_below now cb :
  state cb = StateHalfOpen ->
  0 <= successes cb -> successes cb + 1 < halfOpenMax cb ->
  halfOpenMax cb <= int_max ->
  RecordSuccess now cb =
    mk StateHalfOpen (failures cb) (successes cb + 1) (lastFailure cb)
       (threshold cb) (resetTimeout cb) (halfOpenMax cb) (lastStateChange cb).
Proof.
  intros Hs H0 Hlt Hmax. unfold RecordSuccess. rewrite Hs. cbn.
  rewrite incr_below by lia.
  destruct (Z.leb_spec (halfOpenMax cb) (successes cb + 1)); [lia|].
  unfold set_successes. rewrite Hs. reflexivity.
Qed.

(** The success that fills the budget closes it. *)
Lemma RecordSuccess_reach now cb :
  state cb = StateHalfOpen ->
  0 <= successes cb -> halfOpenMax cb <= successes cb + 1 ->
  successes cb < int_max ->
  RecordSuccess now cb =
    mk StateClosed 0 (successes cb + 1) (lastFailure cb)
       (threshold cb) (resetTimeout cb) (halfOpenMax cb) now.
Proof.
  intros Hs H0 Hle Hmax. unfold RecordSuccess. rewrite Hs. cbn.
  rewrite incr_below by lia.
  destruct (Z.leb_spec (halfOpenMax cb) (successes cb + 1)); [|lia].
  reflexivity.
Qed.

(** A run of successes shorter than what the budget still asks for. *)
Lemma successes_short ts : forall cb,
  state cb = StateHalfOpen ->
  0 <= successes cb ->
  successes cb + Z.of_nat (length ts) < halfOpenMax cb ->
  halfOpenMax cb <= int_max ->
  let cb' := after RecordSuccess ts cb in
  state cb' = StateHalfOpen
  /\ successes cb' = successes cb + Z.of_nat (length ts)
  /\ halfOpenMax cb' = halfOpenMax cb.
Proof.
  induction ts as [|now ts IH]; intros cb Hs H0 Hlt Hmax.
  - cbn. repeat split; try done. lia.
  - rewrite after_cons. cbn [length] in Hlt.
    rewrite (RecordSuccess_below now cb Hs) by lia.
    set (cb1 := mk _ _ _ _ _ _ _ _).
    destruct (IH cb1) as (Ha & Hb & Hc);
      [ reflexivity
      | subst cb1; cbn [successes]; lia
      | subst cb1; cbn [successes halfOpenMax]; lia
      | exact Hmax |].
    cbn zeta. rewrite Ha, Hb, Hc. subst cb1. cbn [successes halfOpenMax length].
    repeat split; lia.
Qed.

Lemma successes_run ts : forall cb,
  state cb = StateHalfOpen ->
  0 <= successes cb ->
  Z.of_nat (length ts) = halfOpenMax cb - successes cb ->
  (1 <= length ts)%nat ->
  halfOpenMax cb <= int_max ->
  let cb' := after RecordSuccess ts cb in
  map state (run RecordSuccess ts cb)
    = replicate (length ts - 1) StateHalfOpen ++ [StateClosed]
  /\ state cb' = StateClosed
  /\ failures cb' = 0.
Proof.
  induction ts as [|now ts IH]; intros cb Hs H0 Hlen H1 Hmax; cbn in H1; [lia|].
  destruct ts as [|now' ts].
  - cbn in Hlen. cbn.
    rewrite (RecordSuccess_reach now cb Hs) by lia. cbn. auto.
  - rewrite after_cons, run_cons.
    cbn [length] in Hlen.
    rewrite (RecordSuccess_below now cb Hs) by lia.
    set (cb1 := mk _ _ _ _ _ _ _ _).
    destruct (IH cb1) as (Ha & Hb & Hc);
      [ reflexivity
      | subst cb1; cbn [successes]; lia
      | subst cb1; cbn [successes halfOpenMax length] in *; lia
      | cbn [length]; lia
      | exact Hmax |].
    cbn zeta in Hb, Hc.
    repeat split.
    + cbn [map]. rewrite Ha. cbn [length state cb1].
      replace (S (S (length ts)) - 1)%nat with (S (S (length ts) - 1)) by lia.
      reflexivity.
    + exact Hb.
    + exact Hc.
Qed.

(** C3. The reset timeout over, the first [Allow] on an open breaker
    answers true and leaves it half-open with no success counted. From
    there a run of as many [RecordSuccess] calls as the trial budget says
    closes it at the last call, not before, and clears the count of
    failures; before the last of them, one [RecordFailure] opens it again
    and [Allow] answers true. For any half-open breaker, one
    [RecordFailure] opens it, and [Allow] answers true exactly when the
    successes counted are below the budget, changing nothing. *)
Theorem half_open_probation (cb : t) (now : Time) (ts : list Time) :
  state cb = StateOpen ->
  resetTimeout cb < Since now (lastFailure cb) ->
  1 <= halfOpenMax cb <= int_max ->
  length ts = Z.to_nat (halfOpenMax cb) ->
  let ho := (Allow now cb).2 in
  (Allow now cb).1 = true
  /\ state ho = StateHalfOpen
  /\ successes ho = 0
  /\ map state (run RecordSuccess ts ho)
       = replicate (length ts - 1) StateHalfOpen ++ [StateClosed]
  /\ state (after RecordSuccess ts ho) = StateClosed
  /\ failures (after RecordSuccess ts ho) = 0
  /\ (forall k u, (k < length ts)%nat ->
        let h := after RecordSuccess (take k ts) ho in
        state (RecordFailure u h) = StateOpen /\ (Allow u h).1 = true)
  /\ (forall h u, state h = StateHalfOpen ->
        state (RecordFailure u h) = StateOpen
        /\ ((Allow u h).1 = true <-> successes h < halfOpenMax h)
        /\ (Allow u h).2 = h).
Proof.
  intros Hs Hel Hmax Hlen ho. subst ho.
  rewrite (Allow_open_elapsed now cb Hs Hel). cbn [fst snd].
  set (ho := mk _ _ _ _ _ _ _ _).
  assert (Hgen : forall h u, state h = StateHalfOpen ->
            state (RecordFailure u h) = StateOpen
            /\ ((Allow u h).1 = true <-> successes h < halfOpenMax h)
            /\ (Allow u h).2 = h).
  { intros h u Hh. unfold RecordFailure, Allow. cbn. rewrite Hh. cbn.
    repeat split; try apply Z.ltb_lt. }
  destruct (successes_run ts ho) as (Ha & Hb & Hc);
    [ reflexivity
    | subst ho; cbn [successes]; lia
    | subst ho; cbn [successes halfOpenMax]; lia
    | lia
    | subst ho; cbn [halfOpenMax]; lia |].
  split; [reflexivity|]. split; [reflexivity|]. split; [reflexivity|].
  split; [exact Ha|]. split; [exact Hb|]. split; [exact Hc|].
  split; [|exact Hgen].
  intros k u Hk.
  destruct (successes_short (take k ts) ho) as (Hst & Hn & Hm);
    [ reflexivity
    | subst ho; cbn [successes]; lia
    | subst ho; cbn [successes halfOpenMax]; rewrite length_take; lia
    | subst ho; cbn [halfOpenMax]; lia |].
  cbn zeta in Hn, Hm.
  destruct (Hgen _ u Hst) as (Hopen & Hallow & _).
  split; [exact Hopen|].
  apply Hallow. rewrite Hn, Hm, length_take.
  subst ho; cbn [successes halfOpenMax]. lia.
Qed.

Lemma half_open_probation_witness :
  let cb := after RecordFailure [10; 20] (NewCircuitBreaker 2 (30 * Second)) in
  let now := 30 * Second + 21 in
  let ho := (Allow now cb).2 in
  (Allow now cb).1 = true
  /\ state ho = StateHalfOpen
  /\ successes ho = 0
  /\ map state (run RecordSuccess [now; now; now] ho)
       = [StateHalfOpen; StateHalfOpen; StateClosed]
  /\ failures (after RecordSuccess [now; now; now] ho) = 0
  /\ state (RecordFailure now (after RecordSuccess [now; now] ho)) = StateOpen.
Proof.
  intros cb now ho.
  destruct (half_open_probation cb now [now; now; now])
    as (Ha & Hb & Hc & Hd & He & Hf & Hg & Hh);
    [ reflexivity
    | vm_compute; reflexivity
    | split; vm_compute; discriminate
    | reflexivity |].
  split; [exact Ha|]. split; [exact Hb|]. split; [exact Hc|].
  split; [exact Hd|]. split; [exact Hf|].
  apply (Hg 2%nat now). cbn. lia.
Defined.

(** *** Histories of calls *)

Lemma probing_apply cb c : probing cb -> probing (apply cb c).
Proof.
  intros [Hmax Hhalf]. destruct c as [[] now]; unfold apply; cbn [fst snd].
  - unfold Allow. destruct (state cb) eqn:Hs; cbn [snd].
    + split; [exact Hmax | intros; congruence].
    + destruct (resetTimeout cb <? Since now (lastFailure cb)); cbn [snd].
      * split; [exact Hmax | cbn; lia].
      * split; [exact Hmax | intros; congruence].
    + split; [exact Hmax | intros _; by apply Hhalf].
  - unfold RecordSuccess. destruct (state cb) eqn:Hs.
    + split; [exact Hmax | cbn; intros; congruence].
    + split; [exact Hmax | intros; congruence].
    + specialize (Hhalf eq_refl). cbn [set_successes halfOpenMax successes].
      rewrite Hmax, incr_below by (unfold int_max; lia).
      destruct (Z.leb_spec 3 (successes cb + 1)).
      * split; [exact Hmax | cbn; intros; congruence].
      * split; [exact Hmax | cbn; lia].
  - unfold RecordFailure. cbn [set_lastFailure state].
    destruct (state cb) eqn:Hs.
    + match goal with |- context [if ?c then _ else _] => destruct c end;
        (split; [exact Hmax | cbn; intros; congruence]).
    + split; [exact Hmax | cbn; intros; congruence].
    + split; [exact Hmax | cbn; intros; congruence].
  - split; [exact Hmax | cbn; intros; congruence].
Qed.

Lemma probing_history cs : forall cb, probing cb -> probing (history cs cb).
Proof.
  induction cs as [|c cs IH]; intros cb Hcb; [exact Hcb|].
  apply IH. by apply probing_apply.
Qed.

(** X1. Whatever has been called on a breaker since [NewCircuitBreaker] made
    it, [Allow] refuses in one case only: the breaker is open and the time
    since the last failure is within the reset timeout. A half-open breaker
    never refuses. *)
Theorem Allow_refuses_only_open (threshold : Z) (resetTimeout : Duration)
    (cs : list (method * Time)) (now : Time) :
  let cb := history cs (NewCircuitBreaker threshold resetTimeout) in
  (Allow now cb).1 = false
  <-> state cb = StateOpen /\ Since now (lastFailure cb) <= resetTimeout.
Proof.
  cbn zeta.
  assert (Hrt : forall cs cb, CircuitBreaker.resetTimeout (history cs cb)
                              = CircuitBreaker.resetTimeout cb).
  { clear. induction cs as [|[m u] cs IH]; intros cb; [reflexivity|].
    cbn [history fold_left]. fold (history cs (apply cb (m, u))).
    rewrite IH. unfold apply. cbn [fst snd].
    destruct m.
    - unfold Allow. destruct (state cb); try reflexivity.
      destruct (_ <? _); reflexivity.
    - unfold RecordSuccess. destruct (state cb); try reflexivity.
      cbn. destruct (_ <=? _); reflexivity.
    - unfold RecordFailure. cbn. destruct (state cb); try reflexivity.
      cbn. destruct (_ <=? _); reflexivity.
    - reflexivity. }
  pose proof (probing_history cs (NewCircuitBreaker threshold resetTimeout))
    as [Hmax Hhalf]; [split; [reflexivity | discriminate]|].
  specialize (Hrt cs (NewCircuitBreaker threshold resetTimeout)).
  cbn [CircuitBreaker.resetTimeout NewCircuitBreaker] in Hrt.
  set (cb := history cs _) in *.
  unfold Allow. rewrite Hrt. destruct (state cb) eqn:Hs; cbn [fst].
  - split; [discriminate | intros [? _]; discriminate].
  - destruct (Z.ltb_spec resetTimeout (Since now (lastFailure cb))); cbn [fst].
    + split; [discriminate | intros [_ ?]; lia].
    + split; [by split | reflexivity].
  - specialize (Hhalf eq_refl). rewrite Hmax.
    destruct (Z.ltb_spec (successes cb) 3); [|lia].
    split; [discriminate | intros [? _]; discriminate].
Qed.

(** *** Failures in a row *)

Lemma worst_ge outcomes : forall cur, (cur <= worst cur outcomes)%nat.
Proof.
  induction outcomes as [|[] outcomes IH]; intros cur; cbn [worst]; [lia| |].
  - lia.
  - specialize (IH (S cur)). lia.
Qed.

(** Reports of outcomes leave an open breaker open. *)
Lemma record_open os : forall cb,
  state cb = StateOpen -> state (fold_left record os cb) = StateOpen.
Proof.
  induction os as [|[ok u] os IH]; intros cb Hs; [exact Hs|].
  cbn [fold_left]. apply IH. unfold record. cbn [fst snd].
  destruct ok.
  - unfold RecordSuccess. by rewrite Hs.
  - unfold RecordFailure. cbn. by rewrite Hs.
Qed.

(** X2. A closed breaker that is told the outcomes of a series of calls is
    still closed after it exactly when the series has nowhere as many
    failures in a row as the threshold says, the failures it had counted
    before the series included: a success between two failures starts the
    count again. If not it is open. *)
Theorem closed_iff_streaks_short (cb : t) (cur : nat)
    (os : list (bool * Time)) :
  state cb = StateClosed ->
  failures cb = Z.of_nat cur ->
  Z.of_nat cur < threshold cb <= int_max ->
  let cb' := fold_left record os cb in
  (state cb' = StateClosed
   <-> Z.of_nat (worst cur (map fst os)) < threshold cb)
  /\ (state cb' = StateClosed \/ state cb' = StateOpen).
Proof.
  revert cb cur. induction os as [|[ok u] os IH]; intros cb cur Hs Hf Hth.
  - cbn. split; [by split; [lia|] | by left].
  - cbn [fold_left map fst worst]. unfold record at 2 4 6. cbn [fst snd].
    destruct ok.
    + assert (Hrec : RecordSuccess u cb = set_failures 0 cb)
        by (unfold RecordSuccess; by rewrite Hs).
      rewrite Hrec.
      destruct (IH (set_failures 0 cb) 0%nat) as [Hiff Hor];
        [exact Hs | reflexivity | cbn [threshold set_failures]; lia |].
      cbn [threshold set_failures] in Hiff. cbn zeta in Hiff, Hor.
      split; [|exact Hor]. rewrite Hiff. lia.
    + destruct (Z.lt_ge_cases (Z.of_nat cur + 1) (threshold cb)) as [Hlt|Hge].
      * rewrite (RecordFailure_below u cb Hs) by lia.
        set (cb1 := mk _ _ _ _ _ _ _ _).
        destruct (IH cb1 (S cur)) as [Hiff Hor];
          [ reflexivity
          | subst cb1; cbn [failures]; lia
          | subst cb1; cbn [threshold]; lia |].
        subst cb1. cbn [threshold] in Hiff. cbn zeta in Hiff, Hor.
        split; [exact Hiff | exact Hor].
      * rewrite (RecordFailure_reach u cb Hs) by lia.
        set (cb1 := mk _ _ _ _ _ _ _ _).
        assert (Hopen : state (fold_left record os cb1) = StateOpen)
          by (apply record_open; reflexivity).
        pose proof (worst_ge (map fst os) (S cur)).
        split; [|right; exact Hopen]. rewrite Hopen.
        split; [discriminate | lia].
Qed.

Lemma closed_iff_streaks_short_witness :
  let cb := NewCircuitBreaker 3 (30 * Second) in
  let os := [(false, 1); (false, 2); (true, 3); (false, 4); (false, 5)] in
  state (fold_left record os cb) = StateClosed
  /\ state (fold_left record (os ++ [(false, 6)]) cb) = StateOpen.
Proof.
  intros cb os.
  destruct (closed_iff_streaks_short cb 0 os) as [Hiff _];
    [reflexivity | reflexivity | split; vm_compute; [reflexivity | discriminate] |].
  split; [apply Hiff; vm_compute; reflexivity|].
  destruct (closed_iff_streaks_short cb 0 (os ++ [(false, 6)])) as [Hiff' Hor];
    [reflexivity | reflexivity | split; vm_compute; [reflexivity | discriminate] |].
  destruct Hor as [Hclosed | Hopen]; [|exact Hopen].
  apply Hiff' in Hclosed. vm_compute in Hclosed. discriminate Hclosed.
Defined.

End CircuitBreakerSpec.

(** ** The fallback cache *)

Module FallbackCacheSpec.
Import Go GoFacts FallbackCache.
Local Open Scope Z_scope.

(** What a valid order visits is what the map binds. *)
Lemma range_of_lookup m order k e :
  range_of m order -> (k, e) ∈ order <-> m !! k = Some e.
Proof.
  unfold range_of. intros Hp. rewrite Hp. apply elem_of_map_to_list.
Qed.

Lemma range_of_map_to_list m : range_of m (map_to_list m).
Proof. unfold range_of. reflexivity. Qed.

Lemma range_of_empty order : range_of ∅ order -> order = [].
Proof.
  unfold range_of. rewrite map_to_list_empty. apply Permutation_nil_r.
Qed.

(** *** The scan of [evictOldest] *)

Lemma scan_first t0 ke : scan ("", t0) ke = (ke.1, expiresAt ke.2).
Proof. reflexivity. Qed.

Lemma scan_next k0 t0 ke :
  k0 <> "" ->
  scan (k0, t0) ke =
    if Before (expiresAt ke.2) t0 then (ke.1, expiresAt ke.2) else (k0, t0).
Proof.
  intros Hk0. unfold scan. cbn [fst snd].
  rewrite bool_decide_eq_false_2 by done. reflexivity.
Qed.

(** Once [oldestKey] is a non-empty key the scan keeps the earliest expiry
    seen, and never goes back to the empty key while the keys visited are
    non-empty. *)
Lemma scan_fold l : forall k0 t0,
  k0 <> "" ->
  Forall (fun ke => ke.1 <> "") l ->
  let r := fold_left scan l (k0, t0) in
  r.1 <> ""
  /\ r.2 <= t0
  /\ Forall (fun ke => r.2 <= expiresAt ke.2) l
  /\ (r = (k0, t0) \/ exists e, (r.1, e) ∈ l /\ r.2 = expiresAt e).
Proof.
  induction l as [|[k e] l IH]; intros k0 t0 Hk0 Hne.
  - cbn. repeat split; try done; try lia. by left.
  - inversion Hne as [|? ? Hk Hl]; subst. cbn [fold_left].
    rewrite (scan_next k0 t0 (k, e) Hk0). cbn [fst snd] in *.
    destruct (Before (expiresAt e) t0) eqn:Hb.
    + apply Before_spec in Hb.
      destruct (IH k (expiresAt e) Hk Hl) as (H1 & H2 & H3 & H4).
      cbn zeta. repeat split; try done; try lia.
      * constructor; [exact H2 | exact H3].
      * right. destruct H4 as [-> | (e' & Hin & Heq)].
        -- exists e. split; [left | reflexivity].
        -- exists e'. split; [by right | exact Heq].
    + assert (t0 <= expiresAt e) by (unfold Before in Hb; lia).
      destruct (IH k0 t0 Hk0 Hl) as (H1 & H2 & H3 & H4).
      cbn zeta. repeat split; try done.
      * constructor; [cbn; lia | exact H3].
      * destruct H4 as [-> | (e' & Hin & Heq)]; [by left | right].
        exists e'. split; [by right | exact Heq].
Qed.

(** Over non-empty keys the scan ends on an entry of earliest expiry. *)
Lemma scan_oldest l :
  l <> [] ->
  Forall (fun ke => ke.1 <> "") l ->
  let r := fold_left scan l ("", zeroTime) in
  r.1 <> ""
  /\ exists e, (r.1, e) ∈ l /\ Forall (fun ke => expiresAt e <= expiresAt ke.2) l.
Proof.
  destruct l as [|[k e] l]; [done|]. intros _ Hne.
  inversion Hne as [|? ? Hk Hl]; subst. cbn [fold_left].
  rewrite scan_first. cbn [fst snd] in *.
  destruct (scan_fold l k (expiresAt e) Hk Hl) as (H1 & H2 & H3 & H4).
  cbn zeta. split; [exact H1|].
  destruct H4 as [Hr | (e' & Hin & Heq)].
  - rewrite Hr in *. cbn [fst snd] in *.
    exists e. split; [left|]. constructor; [cbn; lia | exact H3].
  - exists e'. split; [by right|]. rewrite <- Heq.
    constructor; [exact H2 | exact H3].
Qed.

(** *** Eviction, for stores whose keys are non-empty *)

Lemma evictOldest_earliest fc order :
  range_of (entries fc) order ->
  entries fc !! "" = None ->
  entries fc <> ∅ ->
  exists k e,
    entries fc !! k = Some e
    /\ (forall k' e', entries fc !! k' = Some e' -> expiresAt e <= expiresAt e')
    /\ evictOldest order fc = mk (delete k (entries fc)) (maxSize fc).
Proof.
  intros Hr Hno Hne.
  assert (Hl : order <> []).
  { intros ->. apply Hne. apply map_to_list_empty_iff.
    unfold range_of in Hr. symmetry in Hr. by apply Permutation_nil_r in Hr. }
  assert (Hk : Forall (fun ke => ke.1 <> "") order).
  { apply Forall_forall. intros [k e] Hin Heq. cbn in Heq. subst k.
    apply (range_of_lookup _ _ _ _ Hr) in Hin. congruence. }
  destruct (scan_oldest order Hl Hk) as (Hn & e & Hin & Hmin).
  cbn zeta in Hn, Hin, Hmin.
  exists (fold_left scan order ("", zeroTime)).1, e.
  split; [by apply (range_of_lookup _ _ _ _ Hr)|]. split.
  - intros k' e' Hk'. apply (range_of_lookup _ _ _ _ Hr) in Hk'.
    rewrite Forall_forall in Hmin. apply (Hmin (k', e') Hk').
  - unfold evictOldest. rewrite bool_decide_eq_true_2 by done. reflexivity.
Qed.

(** The entry whose expiry is strictly the earliest is the one evicted. *)
Lemma evictOldest_strict fc order key e :
  range_of (entries fc) order ->
  entries fc !! "" = None ->
  entries fc !! key = Some e ->
  (forall k' e', k' <> key -> entries fc !! k' = Some e' ->
     expiresAt e < expiresAt e') ->
  evictOldest order fc = mk (delete key (entries fc)) (maxSize fc).
Proof.
  intros Hr Hno Hkey Hstrict.
  destruct (evictOldest_earliest fc order Hr Hno) as (k & e0 & Hk & Hmin & ->).
  { intros Hempty. rewrite Hempty in Hkey. by rewrite lookup_empty in Hkey. }
  destruct (decide (k = key)) as [-> | Hneq]; [reflexivity|].
  pose proof (Hstrict k e0 Hneq Hk). pose proof (Hmin key e Hkey). lia.
Qed.

(** [Set] keeps a store of non-empty keys within a capacity of one or
    more. *)
Lemma Set_within_capacity now order key d ttl fc :
  range_of (entries fc) order ->
  entries fc !! "" = None ->
  1 <= maxSize fc ->
  Z.of_nat (size (entries fc)) <= maxSize fc ->
  Z.of_nat (size (entries (Set_ now order key d ttl fc))) <= maxSize fc.
Proof.
  intros Hr Hno Hcap Hsz. unfold Set_.
  destruct (Z.leb_spec (maxSize fc) (Z.of_nat (size (entries fc)))) as [Hfull|Hroom].
  - destruct (evictOldest_earliest fc order Hr Hno) as (k & e & Hk & _ & ->).
    { intros Hempty. rewrite Hempty, map_size_empty in Hfull. lia. }
    cbn [entries maxSize].
    pose proof (map_size_insert key (mkEntry d (Add now ttl))
                  (delete k (entries fc))) as Hi.
    assert (Hd : size (delete k (entries fc)) = Nat.pred (size (entries fc)))
      by (apply map_size_delete_Some; eauto).
    destruct (delete k (entries fc) !! key); cbn in Hi; lia.
  - cbn [entries].
    pose proof (map_size_insert key (mkEntry d (Add now ttl)) (entries fc)) as Hi.
    destruct (entries fc !! key); cbn in Hi; lia.
Qed.

(** *** The sweep *)

(** The sweep only deletes: a binding it leaves is the binding it found. *)
Lemma sweep_fold_lookup now l : forall m k,
  fold_left (sweep now) l m !! k = None
  \/ fold_left (sweep now) l m !! k = m !! k.
Proof.
  induction l as [|[k' e'] l IH]; intros m k; [by right|].
  cbn [fold_left]. destruct (IH (sweep now m (k', e')) k) as [Hn | Heq].
  - by left.
  - rewrite Heq. unfold sweep. cbn [fst snd].
    destruct (After now (expiresAt e')); [|by right].
    destruct (decide (k' = k)) as [-> | Hne].
    + left. apply lookup_delete_eq.
    + right. by apply lookup_delete_ne.
Qed.

Lemma sweep_fold_size now l : forall m,
  (size (fold_left (sweep now) l m) <= size m)%nat.
Proof.
  induction l as [|[k' e'] l IH]; intros m; [done|].
  cbn [fold_left]. etransitivity; [apply IH|].
  unfold sweep. cbn [fst snd].
  destruct (After now (expiresAt e')); [|done].
  rewrite map_size_delete. destruct (m !! k'); cbn; lia.
Qed.

(** An expired entry the sweep visits is gone after it. *)
Lemma sweep_fold_expired now l k e : forall m,
  (k, e) ∈ l -> After now (expiresAt e) = true ->
  fold_left (sweep now) l m !! k = None.
Proof.
  induction l as [|[k' e'] l IH]; intros m Hin Hexp.
  - by apply elem_of_nil in Hin.
  - cbn [fold_left]. apply elem_of_cons in Hin as [Heq | Hin].
    + inversion Heq; subst k' e'.
      destruct (sweep_fold_lookup now l (sweep now m (k, e)) k) as [Hn | Hs];
        [exact Hn|].
      rewrite Hs. unfold sweep. cbn [fst snd]. rewrite Hexp.
      apply lookup_delete_eq.
    + by apply IH.
Qed.

(** What a run of sweeps leaves under a key is what was there, or nothing. *)
Lemma cleanups_lookup sweeps : forall fc k,
  let fc' := fold_left (fun fc s => cleanup s.1 s.2 fc) sweeps fc in
  entries fc' !! k = None \/ entries fc' !! k = entries fc !! k.
Proof.
  induction sweeps as [|[now order] sweeps IH]; intros fc k; [by right|].
  cbn [fold_left fst snd].
  destruct (IH (cleanup now order fc) k) as [Hn | Heq]; [by left|].
  cbn zeta in Heq |- *. rewrite Heq. unfold cleanup. cbn [entries].
  apply sweep_fold_lookup.
Qed.

(** [Get] gives the store back as it was. *)
Lemma Get_store now key fc : (Get now key fc).2 = fc.
Proof.
  unfold Get. destruct (entries fc !! key) as [entry|]; [|reflexivity].
  destruct (After now (expiresAt entry)); reflexivity.
Qed.

(** *** Stores of non-empty keys stay within their capacity *)

Lemma step_maxSize fc o : maxSize (step fc o) = maxSize fc.
Proof.
  destruct o; cbn [step]; try reflexivity.
  - by rewrite Get_store.
  - unfold Set_. cbn. destruct (_ <=? _); [|reflexivity].
    unfold evictOldest. destruct (bool_decide _); reflexivity.
Qed.

Lemma step_no_empty_key fc o :
  proper fc o -> entries fc !! "" = None -> entries (step fc o) !! "" = None.
Proof.
  intros Hp Hno. destruct o; cbn [step].
  - by rewrite Get_store.
  - destruct Hp as [_ Hkey]. unfold Set_. cbn [entries].
    rewrite lookup_insert_ne by done.
    destruct (_ <=? _); [|exact Hno].
    unfold evictOldest. destruct (bool_decide _); [|exact Hno].
    cbn [entries]. rewrite lookup_delete. case_decide; done.
  - cbn. rewrite lookup_delete. case_decide; done.
  - cbn [cleanup entries].
    destruct (sweep_fold_lookup now order (entries fc) "") as [Hn | Heq];
      [exact Hn | by rewrite Heq].
Qed.

Lemma step_within_capacity fc o :
  proper fc o ->
  entries fc !! "" = None ->
  1 <= maxSize fc ->
  Z.of_nat (size (entries fc)) <= maxSize fc ->
  Z.of_nat (size (entries (step fc o))) <= maxSize fc.
Proof.
  intros Hp Hno Hcap Hsz. destruct o; cbn [step].
  - by rewrite Get_store.
  - destruct Hp as [Hr _]. by apply Set_within_capacity.
  - cbn. rewrite map_size_delete. destruct (entries fc !! key); cbn; lia.
  - cbn [cleanup entries].
    pose proof (sweep_fold_size now order (entries fc)). lia.
Qed.

(** X9. Over any run of operations that write no empty key, a store of
    capacity one or more holds no more entries than its capacity. *)
Lemma run_within_capacity os : forall fc,
  proper_run fc os ->
  entries fc !! "" = None ->
  1 <= maxSize fc ->
  Z.of_nat (size (entries fc)) <= maxSize fc ->
  Z.of_nat (size (entries (fold_left step os fc))) <= maxSize fc.
Proof.
  induction os as [|o os IH]; intros fc Hrun Hno Hcap Hsz; [exact Hsz|].
  destruct Hrun as [Hp Hrun]. cbn [fold_left].
  rewrite <- (step_maxSize fc o). apply IH.
  - exact Hrun.
  - by apply step_no_empty_key.
  - by rewrite step_maxSize.
  - rewrite step_maxSize. by apply step_within_capacity.
Qed.

(** *** Expired entries *)

(** C9. [Get] of a key whose entry has its expiry in the past finds
    nothing, whether or not sweeps have run on the store since: before any
    sweep, and after any run of sweeps, at any instants and in any order of
    visit. *)
Theorem Get_expired_not_found (fc : t) (now : Time) (key : string)
    (e : fallbackEntry) (sweeps : list (Time * list (string * fallbackEntry))) :
  entries fc !! key = Some e ->
  expiresAt e < now ->
  (Get now key fc).1 = None
  /\ (Get now key (fold_left (fun fc s => cleanup s.1 s.2 fc) sweeps fc)).1
     = None.
Proof.
  intros Hkey Hexp. apply After_spec in Hexp.
  assert (Hget : forall fc', entries fc' !! key = None
                             \/ entries fc' !! key = Some e ->
                             (Get now key fc').1 = None).
  { intros fc' [Hn | Hs]; unfold Get; [by rewrite Hn|].
    rewrite Hs, Hexp. reflexivity. }
  split; [apply Hget; by right|].
  apply Hget. rewrite <- Hkey. apply cleanups_lookup.
Qed.

Lemma Get_expired_not_found_witness :
  let fc := Set_ 0 [] "k" [x01] Second (NewFallbackCache 10) in
  let now := 2 * Second in
  let early := [(5, map_to_list (entries fc))] in
  (Get now "k" fc).1 = None
  /\ (Get now "k" (fold_left (fun fc s => cleanup s.1 s.2 fc) early fc)).1
     = None.
Proof.
  intros fc now early.
  apply (Get_expired_not_found fc now "k" (mkEntry [x01] Second) early).
  - reflexivity.
  - reflexivity.
Defined.

(** C10. [Get] of a key whose entry has expired answers that nothing is
    there and gives the store back as it was, as every [Get] does: the
    entry is still bound and still counted in the size [Set] compares with
    the capacity. In a store without the empty key it is the entry
    [evictOldest] deletes when its expiry is the earliest; a sweep that
    runs at that instant deletes it, and so does [Delete]. *)
Theorem Get_expired_keeps_entry (fc : t) (now : Time) (key : string)
    (e : fallbackEntry) :
  entries fc !! key = Some e ->
  expiresAt e < now ->
  Get now key fc = (None, fc)
  /\ (forall now' key', (Get now' key' fc).2 = fc)
  /\ entries (Get now key fc).2 !! key = Some e
  /\ size (entries (Get now key fc).2) = size (entries fc)
  /\ (forall order,
        range_of (entries fc) order ->
        entries fc !! "" = None ->
        (forall k' e', k' <> key -> entries fc !! k' = Some e' ->
           expiresAt e < expiresAt e') ->
        entries (evictOldest order (Get now key fc).2)
          = delete key (entries fc))
  /\ (forall order,
        range_of (entries fc) order ->
        entries (cleanup now order (Get now key fc).2) !! key = None)
  /\ entries (Delete key (Get now key fc).2) !! key = None.
Proof.
  intros Hkey Hexp. apply After_spec in Hexp.
  assert (Hget : Get now key fc = (None, fc)).
  { unfold Get. rewrite Hkey, Hexp. reflexivity. }
  rewrite Hget. cbn [snd].
  split; [reflexivity|]. split; [intros; apply Get_store|].
  split; [exact Hkey|]. split; [reflexivity|]. split.
  { intros order Hr Hno Hstrict.
    rewrite (evictOldest_strict fc order key e Hr Hno Hkey Hstrict).
    reflexivity. }
  split.
  { intros order Hr. cbn [cleanup entries].
    apply (sweep_fold_expired now order key e); [|exact Hexp].
    by apply (range_of_lookup _ _ _ _ Hr). }
  cbn. apply lookup_delete_eq.
Qed.

Lemma Get_expired_keeps_entry_witness :
  let fc :=
    Set_ 0 [] "b" [x02] (10 * Second)
      (Set_ 0 [] "a" [x01] Second (NewFallbackCache 2)) in
  let now := 2 * Second in
  let order := map_to_list (entries fc) in
  Get now "a" fc = (None, fc)
  /\ size (entries (Get now "a" fc).2) = 2%nat
  /\ entries (evictOldest order (Get now "a" fc).2) = delete "a" (entries fc)
  /\ entries (cleanup now order (Get now "a" fc).2) !! "a" = None.
Proof.
  intros fc now order.
  destruct (Get_expired_keeps_entry fc now "a" (mkEntry [x01] Second))
    as (Ha & _ & _ & Hsz & Hev & Hsw & _); [reflexivity | reflexivity |].
  split; [exact Ha|]. split; [exact Hsz|]. split.
  - apply Hev; [apply range_of_map_to_list | reflexivity |].
    intros k' e' Hne Hk'.
    assert (Hfc : entries fc =
              <["b" := mkEntry [x02] (10 * Second)]>
                (<["a" := mkEntry [x01] Second]> ∅)) by reflexivity.
    rewrite Hfc in Hk'.
    rewrite lookup_insert in Hk'. case_decide.
    + inversion Hk'. reflexivity.
    + rewrite lookup_insert in Hk'. case_decide; [congruence|].
      by rewrite lookup_empty in Hk'.
  - apply Hsw. apply range_of_map_to_list.
Defined.

(** *** The empty key *)

(** C4, at a store of capacity one that holds the empty key. [evictOldest]
    takes the empty string for no key chosen yet: it deletes nothing, and
    the [Set] of a second key leaves two entries in the store. *)
Theorem evict_empty_key_exceeds_capacity
    (order : list (string * fallbackEntry)) :
  let fc1 := Set_ 0 [] "" [x01] Second (NewFallbackCache 1) in
  let fc2 := Set_ 0 order "b" [x02] (10 * Second) fc1 in
  range_of (entries fc1) order ->
  size (entries fc1) = 1%nat
  /\ evictOldest order fc1 = fc1
  /\ maxSize fc2 = 1
  /\ size (entries fc2) = 2%nat
  /\ entries fc2 !! "" = Some (mkEntry [x01] Second).
Proof.
  intros fc1 fc2 Hr. unfold range_of in Hr.
  assert (Hl : map_to_list (entries fc1) = [("", mkEntry [x01] Second)])
    by (vm_compute; reflexivity).
  rewrite Hl in Hr. apply Permutation_singleton_r in Hr.
  subst fc2. rewrite Hr. vm_compute. repeat split; reflexivity.
Qed.

Lemma evict_empty_key_exceeds_capacity_witness :
  let fc1 := Set_ 0 [] "" [x01] Second (NewFallbackCache 1) in
  let order := [("", mkEntry [x01] Second)] in
  size (entries (Set_ 0 order "b" [x02] (10 * Second) fc1)) = 2%nat.
Proof.
  intros fc1 order.
  destruct (evict_empty_key_exceeds_capacity order) as (_ & _ & _ & Hsz & _).
  - vm_compute. reflexivity.
  - exact Hsz.
Defined.

(** With capacity two and keys that are not empty: A for one second, B for
    ten, C for five, at one instant. The third [Set] evicts A and the store
    ends with B and C. *)
Lemma scenario_capacity_two (now : Time) (dA dB dC : list byte)
    (o1 o2 order : list (string * fallbackEntry)) :
  let fcAB :=
    Set_ now o2 "B" dB (10 * Second)
      (Set_ now o1 "A" dA Second (NewFallbackCache 2)) in
  range_of (entries fcAB) order ->
  entries (Set_ now order "C" dC (5 * Second) fcAB)
    = <["C" := mkEntry dC (Add now (5 * Second))]>
        (<["B" := mkEntry dB (Add now (10 * Second))]> ∅).
Proof.
  intros fcAB Hr.
  assert (HAB : fcAB =
            mk (<["B" := mkEntry dB (Add now (10 * Second))]>
                  (<["A" := mkEntry dA (Add now Second)]> ∅)) 2)
    by reflexivity.
  clearbody fcAB. subst fcAB. unfold Set_. cbn [entries maxSize].
  replace (size _) with 2%nat by (vm_compute; reflexivity).
  cbn [Z.leb Z.of_nat Pos.of_succ_nat Pos.succ Z.compare Pos.compare
       Pos.compare_cont].
  rewrite (evictOldest_strict _ order "A" (mkEntry dA (Add now Second)) Hr).
  - cbn [entries].
    rewrite delete_insert_ne by done.
    rewrite delete_insert_eq, delete_empty. reflexivity.
  - reflexivity.
  - reflexivity.
  - intros k' e' Hne Hk'. cbn [entries] in Hk'.
    rewrite lookup_insert in Hk'. case_decide.
    + inversion Hk'. cbn. unfold Add, Second. lia.
    + rewrite lookup_insert in Hk'. case_decide; [congruence|].
      by rewrite lookup_empty in Hk'.
Qed.

(** *** What the sweep removes, and what a read sees of it *)

(** The sweep leaves a binding it does not visit as expired. *)
Lemma sweep_fold_kept now l k : forall m,
  (forall e, (k, e) ∈ l -> After now (expiresAt e) = false) ->
  fold_left (sweep now) l m !! k = m !! k.
Proof.
  induction l as [|[k' e'] l IH]; intros m Hlive; [reflexivity|].
  cbn [fold_left]. rewrite IH.
  - unfold sweep. cbn [fst snd].
    destruct (After now (expiresAt e')) eqn:Hexp; [|reflexivity].
    destruct (decide (k' = k)) as [-> | Hne].
    + rewrite (Hlive e') in Hexp; [discriminate | left].
    + by apply lookup_delete_ne.
  - intros e Hin. apply Hlive. by right.
Qed.

Lemma cleanup_lookup fc now order k :
  range_of (entries fc) order ->
  entries (cleanup now order fc) !! k
  = match entries fc !! k with
    | Some e => if After now (expiresAt e) then None else Some e
    | None => None
    end.
Proof.
  intros Hr. cbn [cleanup entries].
  destruct (entries fc !! k) as [e|] eqn:Hk.
  - destruct (After now (expiresAt e)) eqn:Hexp.
    + apply (sweep_fold_expired now order k e); [|exact Hexp].
      by apply (range_of_lookup _ _ _ _ Hr).
    + rewrite sweep_fold_kept; [exact Hk|].
      intros e' Hin. apply (range_of_lookup _ _ _ _ Hr) in Hin.
      congruence.
  - destruct (sweep_fold_lookup now order (entries fc) k) as [Hn | Heq];
      [exact Hn | by rewrite Heq].
Qed.

(** X3. One tick of the sweep deletes the entries whose expiry is before the
    instant of the tick, and only those: an entry that expires at that
    instant or later is kept as it is, and the capacity stays. *)
Theorem cleanup_removes_expired_only (fc : t) (now : Time)
    (order : list (string * fallbackEntry)) (k : string) :
  range_of (entries fc) order ->
  entries (cleanup now order fc) !! k
  = match entries fc !! k with
    | Some e => if After now (expiresAt e) then None else Some e
    | None => None
    end
  /\ maxSize (cleanup now order fc) = maxSize fc.
Proof.
  intros Hr. split; [by apply cleanup_lookup | reflexivity].
Qed.

Lemma cleanup_removes_expired_only_witness :
  let fc :=
    Set_ 0 [] "b" [x02] (10 * Second)
      (Set_ 0 [] "a" [x01] Second (NewFallbackCache 2)) in
  let swept := cleanup (2 * Second) (map_to_list (entries fc)) fc in
  entries swept !! "a" = None
  /\ entries swept !! "b" = Some (mkEntry [x02] (10 * Second)).
Proof.
  intros fc swept. subst swept. split.
  - destruct (cleanup_removes_expired_only fc (2 * Second)
                (map_to_list (entries fc)) "a") as [Hlook _];
      [apply range_of_map_to_list|].
    rewrite Hlook. reflexivity.
  - destruct (cleanup_removes_expired_only fc (2 * Second)
                (map_to_list (entries fc)) "b") as [Hlook _];
      [apply range_of_map_to_list|].
    rewrite Hlook. reflexivity.
Defined.

(** X4. A sweep that ran no later than a read changes nothing of what the read
    answers, for any key: what it deleted the read would have taken for
    absent. *)
Theorem cleanup_invisible_to_Get (fc : t) (swept now : Time)
    (order : list (string * fallbackEntry)) (key : string) :
  range_of (entries fc) order ->
  swept <= now ->
  (Get now key (cleanup swept order fc)).1 = (Get now key fc).1.
Proof.
  intros Hr Hle. unfold Get at 1.
  rewrite (cleanup_lookup fc swept order key Hr).
  unfold Get. destruct (entries fc !! key) as [e|]; [|reflexivity].
  destruct (After swept (expiresAt e)) eqn:Hexp.
  - apply After_spec in Hexp.
    assert (Hnow : After now (expiresAt e) = true) by (apply After_spec; lia).
    rewrite Hnow. reflexivity.
  - destruct (After now (expiresAt e)); reflexivity.
Qed.

Lemma cleanup_invisible_to_Get_witness :
  let fc :=
    Set_ 0 [] "b" [x02] (10 * Second)
      (Set_ 0 [] "a" [x01] Second (NewFallbackCache 2)) in
  let swept := cleanup (2 * Second) (map_to_list (entries fc)) fc in
  (Get (3 * Second) "a" swept).1 = (Get (3 * Second) "a" fc).1
  /\ (Get (3 * Second) "b" swept).1 = (Get (3 * Second) "b" fc).1.
Proof.
  intros fc swept. subst swept.
  split; apply cleanup_invisible_to_Get;
    first [apply range_of_map_to_list | vm_compute; discriminate].
Defined.

(** *** Writes and reads *)

Lemma Get_after_Set fc now now' order key d ttl :
  (Get now' key (Set_ now order key d ttl fc)).1
  = if now' <=? now + ttl then Some d else None.
Proof.
  unfold Get, Set_. cbn [entries]. rewrite lookup_insert_eq.
  cbn [expiresAt data]. unfold After, Add.
  destruct (Z.ltb_spec (now + ttl) now'), (Z.leb_spec now' (now + ttl));
    try lia; reflexivity.
Qed.

Lemma Get_after_Delete fc now key : (Get now key (Delete key fc)).1 = None.
Proof. unfold Get, Delete. cbn [entries]. by rewrite lookup_delete_eq. Qed.

(** X5. [Set] then [Get] of the same key, whatever the store held and whatever
    was evicted: the bytes set, up to and at the instant of expiry, and
    nothing after it. A key set twice answers the bytes set last. *)
Theorem Set_Get_round_trip (fc : t) (now now' now'' : Time)
    (order order' : list (string * fallbackEntry)) (key : string)
    (d d' : list byte) (ttl ttl' : Duration) :
  (Get now' key (Set_ now order key d ttl fc)).1
  = (if now' <=? now + ttl then Some d else None)
  /\ (Get now'' key (Set_ now' order' key d' ttl'
                       (Set_ now order key d ttl fc))).1
     = (if now'' <=? now' + ttl' then Some d' else None).
Proof. split; apply Get_after_Set. Qed.

(** X6. [Delete] then [Get] of the same key finds nothing, and [Delete] leaves
    what [Get] answers for any other key. *)
Theorem Delete_Get (fc : t) (now : Time) (key key' : string) :
  key' <> key ->
  (Get now key (Delete key fc)).1 = None
  /\ (Get now key' (Delete key fc)).1 = (Get now key' fc).1.
Proof.
  intros Hne. split; [apply Get_after_Delete|].
  unfold Get, Delete. cbn [entries].
  rewrite lookup_delete_ne by done.
  destruct (entries fc !! key') as [e|]; [|reflexivity].
  destruct (After now (expiresAt e)); reflexivity.
Qed.

Lemma Delete_Get_witness :
  let fc :=
    Set_ 0 [] "b" [x02] (10 * Second)
      (Set_ 0 [] "a" [x01] Second (NewFallbackCache 2)) in
  (Get 1 "a" (Delete "a" fc)).1 = None
  /\ (Get 1 "b" (Delete "a" fc)).1 = (Get 1 "b" fc).1.
Proof. intros fc. apply (Delete_Get fc 1 "a" "b"). discriminate. Defined.

(** *** Eviction *)

(** X7. On a store that is not empty and has no entry under the empty key,
    [evictOldest] deletes one entry, and no other entry expires before
    it. *)
Theorem eviction_removes_one_earliest (fc : t)
    (order : list (string * fallbackEntry)) :
  range_of (entries fc) order ->
  entries fc !! "" = None ->
  entries fc <> ∅ ->
  exists k e,
    entries fc !! k = Some e
    /\ (forall k' e', entries fc !! k' = Some e' -> expiresAt e <= expiresAt e')
    /\ entries (evictOldest order fc) = delete k (entries fc)
    /\ maxSize (evictOldest order fc) = maxSize fc
    /\ size (entries (evictOldest order fc)) = Nat.pred (size (entries fc)).
Proof.
  intros Hr Hno Hne.
  destruct (evictOldest_earliest fc order Hr Hno Hne) as (k & e & Hk & Hmin & ->).
  exists k, e. cbn [entries maxSize].
  repeat split; try done.
  apply map_size_delete_Some. eauto.
Qed.

Lemma eviction_removes_one_earliest_witness :
  let fc :=
    Set_ 0 [] "b" [x02] (10 * Second)
      (Set_ 0 [] "a" [x01] Second (NewFallbackCache 2)) in
  exists k e,
    entries fc !! k = Some e
    /\ (forall k' e', entries fc !! k' = Some e' -> expiresAt e <= expiresAt e')
    /\ entries (evictOldest (map_to_list (entries fc)) fc)
       = delete k (entries fc)
    /\ maxSize (evictOldest (map_to_list (entries fc)) fc) = maxSize fc
    /\ size (entries (evictOldest (map_to_list (entries fc)) fc))
       = Nat.pred (size (entries fc)).
Proof.
  intros fc.
  apply (eviction_removes_one_earliest fc (map_to_list (entries fc))).
  - apply range_of_map_to_list.
  - reflexivity.
  - intros Hempty. apply (f_equal size) in Hempty. vm_compute in Hempty.
    discriminate Hempty.
Defined.

(** X8. A store made with a capacity of zero or less evicts before every
    write: while its keys are not empty it holds the entry written last and
    nothing else. *)
Theorem capacity_zero_keeps_last (fc : t) (now : Time)
    (order : list (string * fallbackEntry)) (key : string)
    (d : list byte) (ttl : Duration) :
  maxSize fc <= 0 ->
  range_of (entries fc) order ->
  entries fc !! "" = None ->
  (size (entries fc) <= 1)%nat ->
  entries (Set_ now order key d ttl fc)
  = {[ key := mkEntry d (Add now ttl) ]}.
Proof.
  intros Hcap Hr Hno Hsz. unfold Set_.
  destruct (Z.leb_spec (maxSize fc) (Z.of_nat (size (entries fc)))); [|lia].
  destruct (decide (entries fc = ∅)) as [Hempty | Hne].
  - rewrite Hempty in Hr. apply range_of_empty in Hr. subst order.
    unfold evictOldest. cbn [fold_left fst].
    rewrite bool_decide_eq_false_2 by (intros Hc; by apply Hc).
    rewrite Hempty. apply insert_empty.
  - destruct (evictOldest_earliest fc order Hr Hno Hne) as (k & e & Hk & _ & ->).
    cbn [entries].
    assert (Hgone : delete k (entries fc) = ∅).
    { apply map_size_empty_iff. rewrite map_size_delete_Some by eauto. lia. }
    rewrite Hgone. apply insert_empty.
Qed.

Lemma capacity_zero_keeps_last_witness :
  let fc := Set_ 0 [] "a" [x01] Second (NewFallbackCache 0) in
  entries fc = {[ "a" := mkEntry [x01] Second ]}
  /\ entries (Set_ 5 (map_to_list (entries fc)) "b" [x02] Second fc)
     = {[ "b" := mkEntry [x02] (Add 5 Second) ]}.
Proof.
  intros fc. split.
  - apply (capacity_zero_keeps_last (NewFallbackCache 0) 0 [] "a" [x01] Second).
    + reflexivity.
    + unfold range_of. cbn. by rewrite map_to_list_empty.
    + reflexivity.
    + cbn. rewrite map_size_empty. lia.
  - apply (capacity_zero_keeps_last fc 5).
    + reflexivity.
    + apply range_of_map_to_list.
    + reflexivity.
    + vm_compute. lia.
Defined.

Lemma run_within_capacity_witness :
  let fc0 := NewFallbackCache 2 in
  let o1 := OpSet 0 [] "a" [x01] Second in
  let o2 := OpSet 0 (map_to_list (entries (step fc0 o1))) "b" [x02] Second in
  let fc2 := step (step fc0 o1) o2 in
  let o3 := OpSet 1 (map_to_list (entries fc2)) "c" [x03] Second in
  let fc3 := step fc2 o3 in
  let o4 := OpCleanup (2 * Second) (map_to_list (entries fc3)) in
  Z.of_nat (size (entries (fold_left step [o1; o2; o3; o4] fc0))) <= 2.
Proof.
  intros fc0 o1 o2 fc2 o3 fc3 o4.
  apply (run_within_capacity [o1; o2; o3; o4] fc0).
  - cbn [proper_run]. repeat split; try done.
    + unfold range_of. cbn. by rewrite map_to_list_empty.
    + apply range_of_map_to_list.
    + apply range_of_map_to_list.
    + apply range_of_map_to_list.
  - reflexivity.
  - cbn. lia.
  - cbn. rewrite map_size_empty. lia.
Defined.

End FallbackCacheSpec.

(** ** The cache facade *)

Module CacheSpec.
Import Go GoFacts Cache.
Local Open Scope Z_scope.

Section WithClient.
Context {R : Type} {client : RedisClient R}.

Lemma fallback_Get_live now key fc e :
  FallbackCache.entries fc !! key = Some e ->
  now <= FallbackCache.expiresAt e ->
  FallbackCache.Get now key fc = (Some (FallbackCache.data e), fc).
Proof.
  intros Hkey Hlive. apply After_false in Hlive.
  unfold FallbackCache.Get. rewrite Hkey, Hlive. reflexivity.
Qed.

Lemma fallback_Set_lookup now order key d ttl fc :
  FallbackCache.entries (FallbackCache.Set_ now order key d ttl fc) !! key
  = Some (FallbackCache.mkEntry d (Add now ttl)).
Proof. unfold FallbackCache.Set_. cbn. apply lookup_insert_eq. Qed.

(** Whatever the breaker and the client do, [Set] leaves in the fallback
    what [FallbackCache.Set_] leaves there. *)
Lemma Set_fallback now order key d ttl (ch : t R) :
  fallback (Set_ now order key d ttl ch).2
  = FallbackCache.Set_ now order key d (effective ttl) (fallback ch).
Proof.
  unfold Set_, effective.
  destruct (CircuitBreaker.Allow now (cb ch)) as [ok cb1].
  destruct ok; cbn [negb]; [|reflexivity].
  destruct (redis_set _ _ _ _) as [[err|] r]; reflexivity.
Qed.

(** With the client failing, [Get] answers from the fallback when the
    fallback holds a live entry. *)
Lemma Get_falls_back now order key (ch : t R) e :
  get_always_fails ->
  FallbackCache.entries (fallback ch) !! key = Some e ->
  now <= FallbackCache.expiresAt e ->
  (Get now order key ch).1 = inr (FallbackCache.data e).
Proof.
  intros Hfail Hkey Hlive. unfold Get.
  destruct (CircuitBreaker.Allow now (cb ch)) as [ok cb1].
  rewrite (fallback_Get_live now key (fallback ch) e Hkey Hlive).
  destruct ok; cbn [negb]; [|reflexivity].
  destruct (Hfail key (c ch)) as [err Herr].
  destruct (redis_get key (c ch)) as [res r]. cbn in Herr. subst res.
  destruct err; reflexivity.
Qed.

(** C1. With a client that fails every read, [Set] of a key and then [Get]
    of it, made no later than the expiry the [Set] gave the entry, answers
    the bytes that were set: whatever the value, the state of the breaker,
    the answer of the client to the write, and the rest of the store. *)
Theorem Set_then_Get (ch : t R) (now1 now2 : Time)
    (order1 order2 : list (string * FallbackCache.fallbackEntry))
    (key : string) (data : list byte) (ttl : Duration) :
  get_always_fails ->
  now2 <= Add now1 (effective ttl) ->
  (Get now2 order2 key (Set_ now1 order1 key data ttl ch).2).1 = inr data.
Proof.
  intros Hfail Hlive.
  apply (Get_falls_back now2 order2 key _
           (FallbackCache.mkEntry data (Add now1 (effective ttl))) Hfail).
  - rewrite Set_fallback. apply fallback_Set_lookup.
  - exact Hlive.
Qed.

(** C7. [Set] writes the value into the fallback under the expiration given,
    or under the default one when it is zero, whatever happens next. When
    the breaker refuses, it answers success and sends the client nothing.
    When the breaker allows, it sends the client the write; if the write
    fails the breaker records a failure and the caller gets the error, the
    fallback holding the value all the same; if not the breaker records a
    success and the caller gets none. *)
Theorem Set_policy (ch : t R) (now : Time)
    (order : list (string * FallbackCache.fallbackEntry))
    (key : string) (data : list byte) (ttl : Duration) :
  let expiration := if ttl =? 0 then defaultExpiration else ttl in
  let res := Set_ now order key data ttl ch in
  let cb1 := (CircuitBreaker.Allow now (cb ch)).2 in
  fallback res.2
    = FallbackCache.Set_ now order key data expiration (fallback ch)
  /\ FallbackCache.entries (fallback res.2) !! key
     = Some (FallbackCache.mkEntry data (Add now expiration))
  /\ match (CircuitBreaker.Allow now (cb ch)).1 with
     | false =>
         res.1 = None
         /\ calls res.2 = calls ch
         /\ c res.2 = c ch
         /\ cb res.2 = cb1
     | true =>
         calls res.2 = calls ch ++ [CallSet key data expiration]
         /\ c res.2 = (redis_set key data expiration (c ch)).2
         /\ match (redis_set key data expiration (c ch)).1 with
            | Some err =>
                res.1 = Some (ErrWith err)
                /\ cb res.2 = CircuitBreaker.RecordFailure now cb1
            | None =>
                res.1 = None
                /\ cb res.2 = CircuitBreaker.RecordSuccess now cb1
            end
     end.
Proof.
  intros expiration res cb1.
  split; [apply Set_fallback|].
  split; [subst res; rewrite Set_fallback; apply fallback_Set_lookup|].
  subst res cb1 expiration. unfold Set_.
  destruct (CircuitBreaker.Allow now (cb ch)) as [ok cb1].
  destruct ok; cbn [negb fst snd]; [|by repeat split].
  destruct (redis_set _ _ _ _) as [[err|] r]; cbn [fst snd]; by repeat split.
Qed.

End WithClient.

Lemma Set_then_Get_witness :
  let ch := NewCache tt in
  (Get (client := unreachable) (7 * Hour) [] "k"
     (Set_ (client := unreachable) 0 [] "k" [x01; x02] 0 ch).2).1
  = inr [x01; x02].
Proof.
  intros ch.
  apply (Set_then_Get (client := unreachable)
           ch 0 (7 * Hour) [] [] "k" [x01; x02] 0).
  - intros key r. eexists. reflexivity.
  - vm_compute. discriminate.
Defined.

Section Reads.
Context {R : Type} {client : RedisClient R}.

(** [Get] answers from the fallback, when the fallback holds a live entry,
    as soon as the breaker refuses or the read of the client fails. *)
Lemma Get_from_fallback now order key (ch : t R) e :
  FallbackCache.entries (fallback ch) !! key = Some e ->
  now <= FallbackCache.expiresAt e ->
  (CircuitBreaker.Allow now (cb ch)).1 = false
  \/ (exists err, (redis_get key (c ch)).1 = inl err) ->
  (Get now order key ch).1 = inr (FallbackCache.data e).
Proof.
  intros Hkey Hlive Hdown. unfold Get.
  destruct (CircuitBreaker.Allow now (cb ch)) as [ok cb1].
  rewrite (fallback_Get_live now key (fallback ch) e Hkey Hlive).
  destruct ok; cbn [negb]; [|reflexivity].
  destruct Hdown as [Hrefused | [err Herr]]; [discriminate Hrefused|].
  destruct (redis_get key (c ch)) as [res r]. cbn in Herr. subst res.
  destruct err; reflexivity.
Qed.

(** What [Get] answers when the fallback holds nothing live under the key
    and the client cannot help: an error. *)
Lemma Get_nothing_left now order key (ch : t R) :
  get_always_fails ->
  (FallbackCache.Get now key (fallback ch)).1 = None ->
  (Get now order key ch).1 = inl ErrOpenNoFallback
  \/ exists err, (Get now order key ch).1 = inl (ErrRedis err).
Proof.
  intros Hfail Hmiss. unfold Get.
  destruct (CircuitBreaker.Allow now (cb ch)) as [ok cb1].
  destruct (FallbackCache.Get now key (fallback ch)) as [[d|] fb];
    [discriminate Hmiss|].
  destruct ok; cbn [negb]; [|by left].
  destruct (Hfail key (c ch)) as [err Herr].
  destruct (redis_get key (c ch)) as [res r]. cbn in Herr. subst res.
  right. exists err. destruct err; reflexivity.
Qed.

(** X10. A value read from the server is kept in the fallback for the default
    expiration: when the breaker allows and the server answers, [Get]
    returns its bytes, and a later [Get] of the key, made within that time
    while the breaker refuses or the read fails, returns the same bytes. *)
Theorem Get_mirrors_server (ch : t R) (now1 now2 : Time)
    (order1 order2 : list (string * FallbackCache.fallbackEntry))
    (key : string) (data : list byte) :
  (CircuitBreaker.Allow now1 (cb ch)).1 = true ->
  (redis_get key (c ch)).1 = inr data ->
  now2 <= Add now1 defaultExpiration ->
  let ch1 := (Get now1 order1 key ch).2 in
  (CircuitBreaker.Allow now2 (cb ch1)).1 = false
  \/ (exists err, (redis_get key (c ch1)).1 = inl err) ->
  (Get now1 order1 key ch).1 = inr data
  /\ (Get now2 order2 key ch1).1 = inr data.
Proof.
  intros Hallow Hhit Hlive ch1 Hdown.
  assert (Hfirst : (Get now1 order1 key ch).1 = inr data
                   /\ fallback ch1
                      = FallbackCache.Set_ now1 order1 key data
                          defaultExpiration (fallback ch)).
  { subst ch1. unfold Get in *.
    destruct (CircuitBreaker.Allow now1 (cb ch)) as [ok cb1].
    cbn in Hallow. subst ok. cbn [negb].
    destruct (redis_get key (c ch)) as [res r]. cbn in Hhit. subst res.
    split; reflexivity. }
  destruct Hfirst as [Hres Hfb]. split; [exact Hres|].
  apply (Get_from_fallback now2 order2 key ch1
           (FallbackCache.mkEntry data (Add now1 defaultExpiration))).
  - rewrite Hfb. apply fallback_Set_lookup.
  - exact Hlive.
  - exact Hdown.
Qed.

(** X11. After [Delete] of a key, a [Get] of it that the client cannot serve
    answers an error, whatever the breaker and the answer of the client to
    the delete: the fallback no longer has the bytes. *)
Theorem Delete_then_Get_fails (ch : t R) (now1 now2 : Time)
    (order : list (string * FallbackCache.fallbackEntry)) (key : string) :
  get_always_fails ->
  let ch1 := (Delete now1 key ch).2 in
  (Get now2 order key ch1).1 = inl ErrOpenNoFallback
  \/ exists err, (Get now2 order key ch1).1 = inl (ErrRedis err).
Proof.
  intros Hfail ch1. apply Get_nothing_left; [exact Hfail|].
  assert (Hfb : fallback ch1 = FallbackCache.Delete key (fallback ch)).
  { subst ch1. unfold Delete.
    destruct (CircuitBreaker.Allow now1 (cb ch)) as [ok cb1].
    destruct ok; cbn [negb]; [|reflexivity].
    destruct (redis_del key (c ch)) as [[err|] r]; reflexivity. }
  rewrite Hfb. apply FallbackCacheSpec.Get_after_Delete.
Qed.

(** X12. [Set] with an expiration below zero writes a fallback entry that has
    expired already: a [Get] of the key made at that instant or later, that
    the client cannot serve, answers an error. *)
Theorem Set_negative_expiration_unreadable (ch : t R) (now1 now2 : Time)
    (order1 order2 : list (string * FallbackCache.fallbackEntry))
    (key : string) (data : list byte) (expiration : Duration) :
  get_always_fails ->
  expiration < 0 ->
  now1 <= now2 ->
  let ch1 := (Set_ now1 order1 key data expiration ch).2 in
  (Get now2 order2 key ch1).1 = inl ErrOpenNoFallback
  \/ exists err, (Get now2 order2 key ch1).1 = inl (ErrRedis err).
Proof.
  intros Hfail Hneg Hle ch1. apply Get_nothing_left; [exact Hfail|].
  subst ch1. rewrite Set_fallback.
  rewrite FallbackCacheSpec.Get_after_Set.
  unfold effective. destruct (Z.eqb_spec expiration 0); [lia|].
  destruct (Z.leb_spec now2 (now1 + expiration)); [lia | reflexivity].
Qed.

(** X13. Reads of keys the server does not hold are no failures: while the
    server answers [redis.Nil], no run of [Get] changes a closed breaker. *)
Theorem Gets_of_missing_keys_keep_breaker (rs : list read) (ch : t R) :
  get_always_nil ->
  CircuitBreaker.state (cb ch) = CircuitBreaker.StateClosed ->
  cb (Gets rs ch) = cb ch /\ l (Gets rs ch) = l ch.
Proof.
  intros Hnil. revert ch. induction rs as [|rd rs IH]; intros ch Hs; [by split|].
  unfold Gets. cbn [fold_left]. fold (Gets rs (Get (r_now rd) (r_order rd) (r_key rd) ch).2).
  assert (Hstep : cb (Get (r_now rd) (r_order rd) (r_key rd) ch).2 = cb ch
                  /\ l (Get (r_now rd) (r_order rd) (r_key rd) ch).2 = l ch).
  { unfold Get, CircuitBreaker.Allow. rewrite Hs. cbn [negb].
    pose proof (Hnil (r_key rd) (c ch)) as Hget.
    destruct (redis_get (r_key rd) (c ch)) as [res r]. cbn in Hget. subst res.
    destruct (FallbackCache.Get _ _ _) as [[d|] fb]; split; reflexivity. }
  destruct Hstep as [Hcb Hl].
  destruct (IH (Get (r_now rd) (r_order rd) (r_key rd) ch).2) as [IHcb IHl];
    [by rewrite Hcb|].
  split; [by rewrite IHcb | by rewrite IHl].
Qed.

End Reads.

Section Writes.
Context {R : Type} {client : RedisClient R}.

(** While the breaker stays closed, each failed write is one failure told
    to it and one command sent. *)
Lemma Sets_failing (ws : list write) : forall ch : t R,
  set_always_fails ->
  CircuitBreaker.state (cb ch) = CircuitBreaker.StateClosed ->
  0 <= CircuitBreaker.failures (cb ch) ->
  Z.of_nat (length ws)
    <= CircuitBreaker.threshold (cb ch) - CircuitBreaker.failures (cb ch) ->
  CircuitBreaker.threshold (cb ch) <= int_max ->
  cb (Sets ws ch)
  = CircuitBreaker.after CircuitBreaker.RecordFailure (map w_now ws) (cb ch)
  /\ length (calls (Sets ws ch)) = (length (calls ch) + length ws)%nat.
Proof.
  intros ch Hfail. revert ch.
  induction ws as [|w ws IH]; intros ch Hs H0 Hlen Hmax.
  - split; [reflexivity | cbn; lia].
  - unfold Sets. cbn [fold_left map].
    set (ch1 := (Set_ (w_now w) (w_order w) (w_key w) (w_data w)
                   (w_expiration w) ch).2).
    fold (Sets ws ch1). rewrite CircuitBreakerSpec.after_cons.
    assert (Hstep : cb ch1 = CircuitBreaker.RecordFailure (w_now w) (cb ch)
                    /\ length (calls ch1) = S (length (calls ch))).
    { subst ch1. unfold Set_, CircuitBreaker.Allow. rewrite Hs. cbn [negb].
      destruct (Hfail (w_key w) (w_data w)
                  (if w_expiration w =? 0 then defaultExpiration
                   else w_expiration w) (c ch)) as [err Herr].
      destruct (redis_set _ _ _ _) as [res r]. cbn in Herr. subst res.
      cbn [snd cb calls]. split; [reflexivity|].
      rewrite length_app. cbn. lia. }
    destruct Hstep as [Hcb Hcalls].
    destruct ws as [|w' ws].
    + cbn [Sets fold_left map length CircuitBreaker.after].
      split; [exact Hcb | lia].
    + cbn [length] in Hlen.
      pose proof (CircuitBreakerSpec.RecordFailure_below (w_now w) (cb ch) Hs H0)
        as Hbelow.
      destruct (IH ch1) as [IHcb IHcalls].
      * rewrite Hcb, Hbelow by lia. reflexivity.
      * rewrite Hcb, Hbelow by lia. cbn. lia.
      * rewrite Hcb, Hbelow by lia. cbn [length]. cbn. lia.
      * rewrite Hcb, Hbelow by lia. cbn. lia.
      * rewrite IHcb, IHcalls, Hcb, Hcalls. cbn [length]. split; [reflexivity | lia].
Qed.

(** X14. With a client that fails every write, a cache whose breaker is closed
    with no failure counted opens it with as many writes as the threshold
    says, one command sent for each. From then on, while the time since the
    last of them is within the reset timeout, [Set] sends the client
    nothing and answers success, the fallback taking the value. *)
Theorem Sets_trip_breaker (ws : list write) (ch : t R) :
  set_always_fails ->
  CircuitBreaker.state (cb ch) = CircuitBreaker.StateClosed ->
  CircuitBreaker.failures (cb ch) = 0 ->
  1 <= CircuitBreaker.threshold (cb ch) <= int_max ->
  length ws = Z.to_nat (CircuitBreaker.threshold (cb ch)) ->
  let ch' := Sets ws ch in
  CircuitBreaker.IsOpen (cb ch') = true
  /\ length (calls ch') = (length (calls ch) + length ws)%nat
  /\ forall now order key data expiration,
       Since now (CircuitBreaker.lastFailure (cb ch'))
         <= CircuitBreaker.resetTimeout (cb ch) ->
       let res := Set_ now order key data expiration ch' in
       res.1 = None
       /\ calls res.2 = calls ch'
       /\ FallbackCache.entries (fallback res.2) !! key
          = Some (FallbackCache.mkEntry data (Add now (effective expiration))).
Proof.
  intros Hfail Hs Hf Hth Hlen ch'.
  destruct (Sets_failing ws ch Hfail Hs) as [Hcb Hcalls]; try lia.
  destruct (CircuitBreakerSpec.failures_run (map w_now ws) (cb ch))
    as (_ & _ & Hopen & _ & Hrt); try done; try lia.
  { rewrite length_map. lia. }
  { rewrite length_map. lia. }
  cbn zeta in Hopen, Hrt. rewrite <- Hcb in Hopen, Hrt. fold ch' in Hopen, Hrt.
  split; [unfold CircuitBreaker.IsOpen; by rewrite Hopen|].
  split; [exact Hcalls|].
  intros now order key data expiration Hwithin res.
  split; [|split].
  - subst res. unfold Set_, CircuitBreaker.Allow. rewrite Hopen, Hrt.
    destruct (Z.ltb_spec (CircuitBreaker.resetTimeout (cb ch))
                (Since now (CircuitBreaker.lastFailure (cb ch')))); [lia|].
    reflexivity.
  - subst res. unfold Set_, CircuitBreaker.Allow. rewrite Hopen, Hrt.
    destruct (Z.ltb_spec (CircuitBreaker.resetTimeout (cb ch))
                (Since now (CircuitBreaker.lastFailure (cb ch')))); [lia|].
    reflexivity.
  - subst res. rewrite Set_fallback. apply fallback_Set_lookup.
Qed.

End Writes.

Lemma Get_mirrors_server_witness :
  let ch := NewCache true in
  (Get (client := flaky [x01; x02]) 0 [] "k" ch).1 = inr [x01; x02]
  /\ (Get (client := flaky [x01; x02]) Hour [] "k"
        (Get (client := flaky [x01; x02]) 0 [] "k" ch).2).1
     = inr [x01; x02].
Proof.
  intros ch.
  apply (Get_mirrors_server (client := flaky [x01; x02])
           ch 0 Hour [] [] "k" [x01; x02]).
  - reflexivity.
  - reflexivity.
  - vm_compute. discriminate.
  - right. eexists. reflexivity.
Defined.

Lemma Delete_then_Get_fails_witness :
  let ch := (Set_ (client := unreachable) 0 [] "k" [x01] 0 (NewCache tt)).2 in
  let ch1 := (Delete (client := unreachable) 1 "k" ch).2 in
  (Get (client := unreachable) 2 [] "k" ch1).1 = inl ErrOpenNoFallback
  \/ exists err,
       (Get (client := unreachable) 2 [] "k" ch1).1 = inl (ErrRedis err).
Proof.
  intros ch ch1.
  apply (Delete_then_Get_fails (client := unreachable) ch 1 2 [] "k").
  intros key r. eexists. reflexivity.
Defined.

Lemma Set_negative_expiration_unreadable_witness :
  let ch1 :=
    (Set_ (client := unreachable) 10 [] "k" [x01] (-1) (NewCache tt)).2 in
  (Get (client := unreachable) 10 [] "k" ch1).1 = inl ErrOpenNoFallback
  \/ exists err,
       (Get (client := unreachable) 10 [] "k" ch1).1 = inl (ErrRedis err).
Proof.
  intros ch1.
  apply (Set_negative_expiration_unreadable (client := unreachable)
           (NewCache tt) 10 10 [] [] "k" [x01] (-1)).
  - intros key r. eexists. reflexivity.
  - reflexivity.
  - vm_compute. discriminate.
Defined.

Lemma Gets_of_missing_keys_keep_breaker_witness :
  let rs := [mkRead 1 [] "a"; mkRead 2 [] "b"; mkRead 3 [] "a";
             mkRead 4 [] "c"; mkRead 5 [] "d"; mkRead 6 [] "e"] in
  cb (Gets (client := vacant) rs (NewCache tt)) = cb (NewCache tt)
  /\ l (Gets (client := vacant) rs (NewCache tt)) = l (NewCache tt).
Proof.
  intros rs.
  apply (Gets_of_missing_keys_keep_breaker (client := vacant) rs (NewCache tt)).
  - intros key r. reflexivity.
  - reflexivity.
Defined.

Lemma Sets_trip_breaker_witness :
  let w now := mkWrite now [] "k" [x01] 0 in
  let ch' := Sets (client := unreachable) [w 1; w 2; w 3; w 4; w 5] (NewCache tt) in
  CircuitBreaker.IsOpen (cb ch') = true
  /\ length (calls ch') = 5%nat
  /\ (Set_ (client := unreachable) 6 [] "k" [x02] 0 ch').1 = None
  /\ calls (Set_ (client := unreachable) 6 [] "k" [x02] 0 ch').2 = calls ch'.
Proof.
  intros w ch'.
  destruct (Sets_trip_breaker (client := unreachable)
              [w 1; w 2; w 3; w 4; w 5] (NewCache tt))
    as (Hopen & Hcalls & Hlater).
  - intros key data expiration r. eexists. reflexivity.
  - reflexivity.
  - reflexivity.
  - split; vm_compute; discriminate.
  - reflexivity.
  - split; [exact Hopen|]. split; [exact Hcalls|].
    destruct (Hlater 6 [] "k" [x02] 0) as (Hres & Hsame & _).
    + vm_compute. discriminate.
    + split; [exact Hres | exact Hsame].
Defined.

End CacheSpec.

(** ** The bot *)

Module BotSpec.
Import Go GoFacts Bot.

(** *** Channels *)

(** A channel at capacity with no receiver waiting takes no send. *)
Lemma can_send_full {A} (ch : Chan.t A) :
  Chan.recvq ch = 0 -> Chan.len ch = Chan.cap ch -> Chan.can_send ch = false.
Proof.
  unfold Chan.can_send, Chan.len. intros -> ->.
  rewrite !Nat.ltb_irrefl. reflexivity.
Qed.

(** A well-formed channel of capacity one or more that is at capacity has no
    receiver waiting. *)
Lemma wf_full_no_receiver {A} (ch : Chan.t A) :
  Chan.wf ch -> 0 < Chan.cap ch -> Chan.len ch = Chan.cap ch ->
  Chan.recvq ch = 0.
Proof.
  unfold Chan.wf, Chan.len. intros [_ Hq] Hcap Hlen.
  destruct (Chan.recvq ch) as [|n]; [reflexivity|].
  rewrite Hq in Hlen by lia. cbn in Hlen. lia.
Qed.

(** *** The registry *)

Lemma ensure_new guildID b :
  contexts b !! guildID = None ->
  ensure guildID b
  = (mkCtx false (Chan.make 1000) (Chan.make 500),
     set_contexts
       (<[guildID := mkCtx false (Chan.make 1000) (Chan.make 500)]> (contexts b))
       b).
Proof. intros Hnone. unfold ensure. rewrite Hnone. reflexivity. Qed.

Lemma ensure_known guildID b ctx :
  contexts b !! guildID = Some ctx -> ensure guildID b = (ctx, b).
Proof. intros Hsome. unfold ensure. rewrite Hsome. reflexivity. Qed.

(** [ensure] installs queues of 1000 events and 500 relayed texts, and keeps
    a registry of such queues one. *)
Lemma ensure_capacities guildID b :
  capacities 1000 500 b -> capacities 1000 500 (ensure guildID b).2.
Proof.
  intros Hcap. destruct (contexts b !! guildID) as [ctx|] eqn:Hlook.
  - rewrite (ensure_known _ _ _ Hlook). exact Hcap.
  - rewrite (ensure_new _ _ Hlook). cbn [snd].
    intros g ctx. unfold set_contexts. cbn [contexts].
    rewrite lookup_insert. case_decide.
    + intros Hctx. inversion Hctx. split; reflexivity.
    + apply Hcap.
Qed.

Lemma register_contexts db gID b :
  contexts (register db gID b)
  = <[gID := mkCtx false (Chan.make 0) (Chan.make 0)]> (contexts b).
Proof.
  unfold register.
  destruct (get db); destruct (writeFails db); reflexivity.
Qed.

(** C8, at [register]. Whatever the database answers and whatever the
    registry held, the context [register] installs for the guild has an
    event queue and a relay queue of capacity zero: the registry is then
    not one of queues of 1000 and 500, the capacities [ensure] gives. *)
Theorem register_installs_unbuffered (db : dbAnswers) (gID : string) (b : t) :
  (exists ctx,
     contexts (register db gID b) !! gID = Some ctx
     /\ Chan.cap (Events ctx) = 0
     /\ Chan.cap (Relay ctx) = 0)
  /\ ~ capacities 1000 500 (register db gID b)
  /\ capacities 1000 500 (ensure gID NewBot).2.
Proof.
  assert (Hlook : contexts (register db gID b) !! gID
                  = Some (mkCtx false (Chan.make 0) (Chan.make 0))).
  { rewrite register_contexts. apply lookup_insert_eq. }
  split; [eexists; split; [exact Hlook | split; reflexivity]|].
  split.
  - intros Hcap. destruct (Hcap _ _ Hlook) as [Hev _]. cbn in Hev. lia.
  - apply ensure_capacities. intros g ctx Hctx.
    cbn in Hctx. by rewrite lookup_empty in Hctx.
Qed.

(** *** The monitor *)

(** The loop of the monitor takes events off the channel until it is empty
    or five hundred are gone. *)
Lemma monitorScan_buf fuel : forall i ev l n,
  (0 <= i)%Z -> (500 - i < Z.of_nat fuel)%Z ->
  Chan.buf (monitorScan fuel i ev l n).1.1
  = drop (Z.to_nat (500 - i)) (Chan.buf ev).
Proof.
  induction fuel as [|fuel IH]; intros i ev l n Hi Hfuel.
  - replace (Z.to_nat (500 - i)) with 0 by lia. reflexivity.
  - cbn [monitorScan]. destruct (Z.ltb_spec i 500) as [Hlt|Hge].
    + unfold Chan.recv. destruct (Chan.buf ev) as [|v rest] eqn:Hbuf.
      * assert (Hstop : monitorScan fuel (500 + 1) ev l n = (ev, l, n))
          by (destruct fuel; reflexivity).
        rewrite Hstop. cbn [fst snd]. rewrite Hbuf, drop_nil. reflexivity.
      * rewrite IH by lia. cbn [Chan.buf].
        replace (Z.to_nat (500 - i)) with (S (Z.to_nat (500 - (i + 1)))) by lia.
        reflexivity.
    + replace (Z.to_nat (500 - i)) with 0 by lia. reflexivity.
Qed.

Lemma monitorTick_buf above60 now vars ctx l :
  Chan.buf (Events (monitorTick above60 now vars ctx l).1.2)
  = drop 500 (Chan.buf (Events ctx)).
Proof.
  unfold monitorTick.
  pose proof (monitorScan_buf 501 0 (Events ctx) l 0) as Hscan.
  destruct (monitorScan 501 0 (Events ctx) l 0) as [[ev l'] n].
  cbn [fst snd] in Hscan.
  destruct (above60 _ _); cbn [fst snd Events]; apply Hscan; lia.
Qed.

(** C5, at a queue that holds events. One tick of the monitor takes the
    first five hundred events off the queue of the guild, all of them when
    there are fewer; with one interaction waiting in a queue of a thousand,
    the tick leaves the queue empty and logs that it removed an event. *)
Theorem monitorTick_removes_events (above60 : nat -> nat -> bool)
    (now : Time) (vars : monitorVars) (ctx : GuildContext) (l : list logline) :
  Chan.buf (Events (monitorTick above60 now vars ctx l).1.2)
  = drop 500 (Chan.buf (Events ctx))
  /\ let ctx1 :=
       mkCtx false (Chan.send (interaction "i1") (Chan.make 1000))
             (Chan.make 500) in
     let res := monitorTick (fun _ _ => false) now vars ctx1 [] in
     Chan.buf (Events ctx1) = [interaction "i1"]
     /\ Chan.buf (Events res.1.2) = []
     /\ res.2 = [(Error, "unexpectedly removed event during channel monitoring")].
Proof.
  split; [apply monitorTick_buf|].
  cbn zeta. split; [reflexivity|]. split; reflexivity.
Qed.

(** *** enqueue *)

Lemma delivered_log guildID event b b' :
  delivered guildID event b b' -> l b' = l b.
Proof. intros (ctx & _ & ->). reflexivity. Qed.

Lemma log_grows line (ls : list logline) : ls ++ [line] <> ls.
Proof.
  intros Heq. apply (f_equal length) in Heq.
  rewrite length_app in Heq. cbn in Heq. lia.
Qed.

Lemma delivered_not_logged guildID event line b :
  ~ delivered guildID event b (log line b).
Proof.
  intros Hd. apply delivered_log in Hd. cbn in Hd. by apply log_grows in Hd.
Qed.

Lemma log_inj line1 line2 b : log line1 b = log line2 b -> line1 = line2.
Proof.
  intros Heq. apply (f_equal l) in Heq. cbn in Heq.
  apply app_inv_head in Heq. by inversion Heq.
Qed.

(** C6 as stated fails for a guild the registry does not know: the new bot
    drops the interaction with a fourth message, and the outcome is none of
    the three. *)
Lemma enqueue_unknown_guild :
  droppedUnknown NewBot (enqueue true "g" (interaction "i1") NewBot)
  /\ ~ (delivered "g" (interaction "i1") NewBot
           (enqueue true "g" (interaction "i1") NewBot)
        \/ droppedCancelled NewBot
             (enqueue true "g" (interaction "i1") NewBot)
        \/ droppedFull NewBot
             (enqueue true "g" (interaction "i1") NewBot)).
Proof.
  split; [reflexivity|].
  intros [Hd | [Hc | Hf]].
  - destruct Hd as (ctx & Hctx & _). cbn in Hctx.
    by rewrite lookup_empty in Hctx.
  - unfold droppedCancelled in Hc. apply (f_equal l) in Hc. discriminate Hc.
  - unfold droppedFull in Hf. apply (f_equal l) in Hf. discriminate Hf.
Qed.

(** On the unbuffered queue [register] installs, at capacity from the start,
    an event is delivered when the dispatcher waits on the queue: it goes
    to the receiver past the buffer. *)
Lemma enqueue_unbuffered_handoff (db : dbAnswers) (event : GuildEvent) :
  let b := register db "g" NewBot in
  let waiting :=
    set_contexts
      (<["g" := mkCtx false (Chan.park (Chan.make 0)) (Chan.make 0)]>
         (contexts b)) b in
  let b' := enqueue true "g" event waiting in
  delivered "g" event waiting b'
  /\ exists ctx,
       contexts b' !! "g" = Some ctx
       /\ Chan.len (Events ctx) = Chan.cap (Events ctx)
       /\ Chan.handed (Events ctx) = [event].
Proof.
  intros b waiting b'.
  assert (Hctx : contexts waiting !! "g"
                 = Some (mkCtx false (Chan.park (Chan.make 0)) (Chan.make 0)))
    by apply lookup_insert_eq.
  assert (Hb' : b' = set_contexts
                  (<["g" := mkCtx false
                               (Chan.send event (Chan.park (Chan.make 0)))
                               (Chan.make 0)]> (contexts waiting)) waiting).
  { assert (Hdone : done waiting = false).
    { subst waiting b. unfold register.
      destruct (get db), (writeFails db); reflexivity. }
    subst b'. unfold enqueue, Done. rewrite Hctx, Hdone. reflexivity. }
  split.
  - eexists. split; [exact Hctx | exact Hb'].
  - eexists. split; [rewrite Hb'; apply lookup_insert_eq|].
    split; reflexivity.
Qed.

(** C6, amended. [enqueue] is a function: it answers at once, and has no
    error to give. For a guild the registry does not know the event is
    dropped with a warning. For a guild it knows there are three outcomes
    and no two at once: the event goes to the queue, when the send can go
    ahead (and the context is live, or [select] picks the send); it is
    dropped as cancelled, when the context is done (and the send cannot go
    ahead, or [select] picks [Done]); it is dropped as full, when neither
    can. When the queue is at capacity with no receiver waiting on it, the
    event is not delivered and the registry, so the queue and its length,
    is as before. *)
Theorem enqueue_outcomes (pick : bool) (guildID : string)
    (event : GuildEvent) (b : t) :
  let b' := enqueue pick guildID event b in
  match contexts b !! guildID with
  | None => droppedUnknown b b'
  | Some ctx =>
      let ready := Chan.can_send (Events ctx) in
      ((delivered guildID event b b'
        /\ ready = true /\ (Done b ctx = false \/ pick = true))
       \/ (droppedCancelled b b'
           /\ Done b ctx = true /\ (ready = false \/ pick = false))
       \/ (droppedFull b b' /\ ready = false /\ Done b ctx = false))
      /\ ~ (delivered guildID event b b' /\ droppedCancelled b b')
      /\ ~ (delivered guildID event b b' /\ droppedFull b b')
      /\ ~ (droppedCancelled b b' /\ droppedFull b b')
      /\ (Chan.recvq (Events ctx) = 0 ->
          Chan.len (Events ctx) = Chan.cap (Events ctx) ->
          contexts b' = contexts b
          /\ (droppedCancelled b b' \/ droppedFull b b')
          /\ ~ delivered guildID event b b')
  end.
Proof.
  cbn zeta. destruct (contexts b !! guildID) as [ctx|] eqn:Hctx.
  2: { unfold enqueue. rewrite Hctx. reflexivity. }
  split; [|split; [|split; [|split]]].
  - unfold enqueue. rewrite Hctx.
    destruct (Chan.can_send (Events ctx)), (Done b ctx), pick;
      first [ left; split; [by exists ctx | by auto]
            | right; left; split; [reflexivity | by auto]
            | right; right; split; [reflexivity | by auto] ].
  - intros [Hd Hc]. unfold droppedCancelled in Hc. rewrite Hc in Hd.
    by apply delivered_not_logged in Hd.
  - intros [Hd Hf]. unfold droppedFull in Hf. rewrite Hf in Hd.
    by apply delivered_not_logged in Hd.
  - intros [Hc Hf]. unfold droppedCancelled in Hc. unfold droppedFull in Hf.
    rewrite Hc in Hf. apply log_inj in Hf. discriminate Hf.
  - intros Hq Hfull. unfold enqueue. rewrite Hctx.
    rewrite (can_send_full _ Hq Hfull).
    destruct (Done b ctx).
    + split; [reflexivity|]. split; [by left | apply delivered_not_logged].
    + split; [reflexivity|]. split; [by right | apply delivered_not_logged].
Qed.

Lemma enqueue_outcomes_witness :
  let full := Chan.mk (replicate 1000 (interaction "i0")) 1000 0 [] in
  let ctx := mkCtx false full (Chan.make 500) in
  let b := set_contexts {["g" := ctx]} NewBot in
  let b' := enqueue true "g" (interaction "i1") b in
  contexts b' = contexts b
  /\ (droppedCancelled b b' \/ droppedFull b b')
  /\ ~ delivered "g" (interaction "i1") b b'.
Proof.
  intros full ctx b b'.
  pose proof (enqueue_outcomes true "g" (interaction "i1") b) as Hout.
  cbn zeta in Hout.
  assert (Hctx : contexts b !! "g" = Some ctx) by apply lookup_singleton_eq.
  rewrite Hctx in Hout.
  destruct Hout as (_ & _ & _ & _ & Hfull).
  apply Hfull; [reflexivity|].
  unfold Chan.len. cbn [Events ctx Chan.buf Chan.cap full].
  apply length_replicate.
Defined.

(** *** ensure and remove *)

(** X15. [ensure] is get-or-create: the registry binds the guild to the context
    it returns, a context the registry had is returned as it was with the
    bot unchanged, the other guilds keep theirs, and a second [ensure]
    returns the same context and changes nothing more. *)
Theorem ensure_get_or_create (guildID other : string) (b : t) :
  other <> guildID ->
  let res := ensure guildID b in
  contexts res.2 !! guildID = Some res.1
  /\ contexts res.2 !! other = contexts b !! other
  /\ ensure guildID res.2 = res
  /\ match contexts b !! guildID with
     | Some ctx => res = (ctx, b)
     | None =>
         res.1 = mkCtx false (Chan.make 1000) (Chan.make 500)
         /\ l res.2 = l b /\ done res.2 = done b /\ started res.2 = started b
     end.
Proof.
  intros Hne res. subst res.
  destruct (contexts b !! guildID) as [ctx|] eqn:Hlook.
  - rewrite (ensure_known _ _ _ Hlook). cbn [fst snd].
    rewrite (ensure_known _ _ _ Hlook). by repeat split.
  - rewrite (ensure_new _ _ Hlook). cbn [fst snd].
    unfold set_contexts. cbn [contexts l done started].
    split; [apply lookup_insert_eq|].
    split; [by apply lookup_insert_ne|].
    split; [|by repeat split].
    apply ensure_known. apply lookup_insert_eq.
Qed.

Lemma ensure_get_or_create_witness :
  let res := ensure "g" NewBot in
  contexts res.2 !! "g" = Some res.1
  /\ contexts res.2 !! "h" = None
  /\ ensure "g" res.2 = res.
Proof.
  intros res.
  destruct (ensure_get_or_create "g" "h" NewBot) as (Ha & Hb & Hc & _);
    [discriminate|].
  split; [exact Ha|]. split; [|exact Hc].
  etransitivity; [exact Hb | apply lookup_empty].
Defined.

(** X16. [remove] forgets the guild and leaves the others theirs; an event for
    the guild is then dropped as for an unknown guild; a second [remove]
    finds nothing to forget. *)
Theorem remove_forgets (gID other : string) (pick : bool)
    (event : GuildEvent) (b : t) :
  other <> gID ->
  contexts (remove gID b) !! gID = None
  /\ contexts (remove gID b) !! other = contexts b !! other
  /\ droppedUnknown (remove gID b) (enqueue pick gID event (remove gID b))
  /\ contexts (remove gID (remove gID b)) = contexts (remove gID b).
Proof.
  intros Hne.
  assert (Hctx : contexts (remove gID b) = delete gID (contexts b)).
  { unfold remove. destruct (contexts b !! gID) eqn:Hlook; cbn; [reflexivity|].
    symmetry. by apply delete_id. }
  assert (Hgone : contexts (remove gID b) !! gID = None)
    by (rewrite Hctx; apply lookup_delete_eq).
  split; [exact Hgone|].
  split; [rewrite Hctx; by apply lookup_delete_ne|].
  split.
  - unfold droppedUnknown, enqueue. by rewrite Hgone.
  - unfold remove at 1. by rewrite Hgone.
Qed.

Lemma remove_forgets_witness :
  let b := (ensure "h" (ensure "g" NewBot).2).2 in
  contexts (remove "g" b) !! "g" = None
  /\ contexts (remove "g" b) !! "h" = contexts b !! "h".
Proof.
  intros b.
  destruct (remove_forgets "g" "h" true (interaction "i1") b) as (Ha & Hb & _);
    [discriminate|].
  split; [exact Ha | exact Hb].
Defined.

(** *** Runs of enqueue *)

(** Events for a live guild whose queue no receiver waits on go to the
    queue in the order they come while there is room; the others are
    dropped, each with the warning that the channel is full. *)
Lemma enqueues_live guildID evs : forall b ctx,
  contexts b !! guildID = Some ctx ->
  Done b ctx = false ->
  Chan.recvq (Events ctx) = 0 ->
  let b' := enqueues guildID evs b in
  let room := Chan.cap (Events ctx) - Chan.len (Events ctx) in
  contexts b' !! guildID
  = Some (mkCtx (cancelled ctx)
            (Chan.mk (Chan.buf (Events ctx) ++ take room evs.*2)
                     (Chan.cap (Events ctx)) 0 (Chan.handed (Events ctx)))
            (Relay ctx))
  /\ (forall other, other <> guildID ->
        contexts b' !! other = contexts b !! other)
  /\ l b'
     = l b ++ replicate (length evs - room)
                (Warn, "event channel full, dropping event")
  /\ done b' = done b.
Proof.
  induction evs as [|[pick ev] evs IH]; intros b ctx Hctx Hlive Hq.
  - cbn zeta. cbn [enqueues fold_left fmap list_fmap length Nat.sub replicate].
    rewrite take_nil, !app_nil_r. rewrite Hctx.
    destruct ctx as [cn [buf cap rq hd] rl]. cbn in Hq. subst rq.
    by repeat split.
  - unfold enqueues. cbn [fold_left fst snd].
    fold (enqueues guildID evs (enqueue pick guildID ev b)).
    assert (Hcn : cancelled ctx = false /\ done b = false).
    { unfold Done in Hlive. by apply orb_false_elim in Hlive. }
    destruct Hcn as [Hcn Hdn].
    destruct (Nat.ltb (length (Chan.buf (Events ctx))) (Chan.cap (Events ctx)))
      eqn:Hlt.
    + apply Nat.ltb_lt in Hlt as Hroom.
      set (ctx1 := mkCtx (cancelled ctx) (Chan.send ev (Events ctx)) (Relay ctx)).
      set (b1 := set_contexts (<[guildID := ctx1]> (contexts b)) b).
      assert (Hstep : enqueue pick guildID ev b = b1).
      { unfold enqueue. rewrite Hctx, Hlive. unfold Chan.can_send.
        rewrite Hq, Hlt. reflexivity. }
      rewrite Hstep.
      assert (Hsend : Events ctx1
                = Chan.mk (Chan.buf (Events ctx) ++ [ev]) (Chan.cap (Events ctx))
                    0 (Chan.handed (Events ctx))).
      { subst ctx1. cbn [Events]. unfold Chan.send. rewrite Hq. reflexivity. }
      destruct (IH b1 ctx1) as (Ha & Hb & Hc & Hd).
      * subst b1. cbn. apply lookup_insert_eq.
      * subst b1 ctx1. unfold Done. cbn. by rewrite Hcn, Hdn.
      * by rewrite Hsend.
      * cbn zeta in Ha, Hb, Hc, Hd. rewrite Hsend in Ha, Hc.
        unfold Chan.len in *.
        cbn [Chan.buf Chan.cap Chan.handed] in Ha, Hc.
        rewrite length_app in Ha, Hc. cbn [length] in Ha, Hc.
        cbn zeta. cbn [fmap list_fmap snd length].
        replace (Chan.cap (Events ctx) - length (Chan.buf (Events ctx)))
          with (S (Chan.cap (Events ctx) - (length (Chan.buf (Events ctx)) + 1)))
          by lia.
        cbn [take]. rewrite <- app_assoc in Ha. cbn [app] in Ha.
        split; [exact Ha|]. split.
        { intros other Hne. rewrite Hb by done. subst b1. cbn.
          by apply lookup_insert_ne. }
        split; [|exact Hd].
        rewrite Hc. subst b1. cbn [l set_contexts]. reflexivity.
    + apply Nat.ltb_ge in Hlt as Hfull.
      assert (Hstep : enqueue pick guildID ev b
                      = log (Warn, "event channel full, dropping event") b).
      { unfold enqueue. rewrite Hctx, Hlive. unfold Chan.can_send.
        rewrite Hq, Hlt. reflexivity. }
      rewrite Hstep.
      destruct (IH (log (Warn, "event channel full, dropping event") b) ctx)
        as (Ha & Hb & Hc & Hd); [exact Hctx | exact Hlive | exact Hq |].
      cbn zeta in Ha, Hb, Hc, Hd. cbn zeta. unfold Chan.len in *.
      replace (Chan.cap (Events ctx) - length (Chan.buf (Events ctx))) with 0
        in * by lia.
      cbn [take] in *. rewrite Nat.sub_0_r in *.
      split; [exact Ha|]. split; [exact Hb|]. split; [|exact Hd].
      rewrite Hc. cbn [l log length replicate].
      rewrite <- app_assoc. reflexivity.
Qed.

(** X17. Events for a live guild whose queue no receiver waits on are queued in
    the order they come while the queue has room; from the first that
    finds it full, every event is dropped with the warning that the channel
    is full. The other guilds are untouched. *)
Theorem enqueues_fifo_until_full (guildID other : string)
    (evs : list (bool * GuildEvent)) (b : t) (ctx : GuildContext) :
  contexts b !! guildID = Some ctx ->
  Done b ctx = false ->
  Chan.recvq (Events ctx) = 0 ->
  other <> guildID ->
  let b' := enqueues guildID evs b in
  let room := Chan.cap (Events ctx) - Chan.len (Events ctx) in
  contexts b' !! guildID
  = Some (mkCtx (cancelled ctx)
            (Chan.mk (Chan.buf (Events ctx) ++ take room evs.*2)
                     (Chan.cap (Events ctx)) 0 (Chan.handed (Events ctx)))
            (Relay ctx))
  /\ contexts b' !! other = contexts b !! other
  /\ l b'
     = l b ++ replicate (length evs - room)
                (Warn, "event channel full, dropping event").
Proof.
  intros Hctx Hlive Hq Hne.
  destruct (enqueues_live guildID evs b ctx Hctx Hlive Hq) as (Ha & Hb & Hc & _).
  split; [exact Ha|]. split; [by apply Hb | exact Hc].
Qed.

Lemma enqueues_fifo_until_full_witness :
  let almost := Chan.mk (replicate 999 (interaction "i0")) 1000 0 [] in
  let ctx := mkCtx false almost (Chan.make 500) in
  let b := set_contexts {["g" := ctx]} NewBot in
  let b' := enqueues "g" [(true, interaction "i1"); (true, interaction "i2")] b in
  contexts b' !! "g"
  = Some (mkCtx false
            (Chan.mk (replicate 999 (interaction "i0") ++ [interaction "i1"])
                     1000 0 [])
            (Chan.make 500))
  /\ l b' = [(Warn, "event channel full, dropping event")].
Proof.
  intros almost ctx b b'.
  destruct (enqueues_fifo_until_full "g" "h"
              [(true, interaction "i1"); (true, interaction "i2")] b ctx)
    as (Ha & _ & Hc).
  - apply lookup_singleton_eq.
  - reflexivity.
  - reflexivity.
  - discriminate.
  - cbn zeta in Ha, Hc. unfold Chan.len in Ha, Hc.
    cbn [Events ctx almost Chan.buf Chan.cap Chan.handed cancelled Relay]
      in Ha, Hc.
    rewrite length_replicate in Ha, Hc.
    split; [exact Ha | exact Hc].
Defined.

(** X18. Until a receiver waits on its queue, every event for a guild that
    [register] has just registered on a live bot is dropped with the
    warning that the channel is full: the queue [register] makes has no
    room. *)
Theorem register_then_enqueues_dropped (db : dbAnswers) (gID : string)
    (evs : list (bool * GuildEvent)) (b : t) :
  done b = false ->
  let b1 := register db gID b in
  let b' := enqueues gID evs b1 in
  contexts b' !! gID = contexts b1 !! gID
  /\ l b'
     = l b1 ++ replicate (length evs)
                 (Warn, "event channel full, dropping event").
Proof.
  intros Hlive b1 b'.
  assert (Hctx : contexts b1 !! gID
                 = Some (mkCtx false (Chan.make 0) (Chan.make 0))).
  { subst b1. rewrite register_contexts. apply lookup_insert_eq. }
  assert (Hdone : done b1 = false).
  { subst b1. unfold register.
    destruct (get db), (writeFails db); exact Hlive. }
  destruct (enqueues_live gID evs b1 _ Hctx) as (Ha & _ & Hc & _).
  - unfold Done. cbn. exact Hdone.
  - reflexivity.
  - cbn zeta in Ha, Hc. subst b'. split.
    + rewrite Ha, Hctx. reflexivity.
    + rewrite Hc. cbn. by rewrite Nat.sub_0_r.
Qed.

Lemma register_then_enqueues_dropped_witness :
  let b1 := register (mkDb GuildStored false) "g" NewBot in
  let b' := enqueues "g" [(true, interaction "i1"); (true, interaction "i2")] b1 in
  contexts b' !! "g" = contexts b1 !! "g"
  /\ l b'
     = l b1 ++ replicate 2 (Warn, "event channel full, dropping event").
Proof.
  intros b1 b'.
  apply (register_then_enqueues_dropped (mkDb GuildStored false) "g"
           [(true, interaction "i1"); (true, interaction "i2")] NewBot).
  reflexivity.
Defined.

(** *** The status texts *)

(** X19. From the start of its cycle the status loop sends, while the counts
    and the updates go through, the count of servers, then the count of
    commands, then an empty text, and is back at the start. A count that
    fails sends nothing and leaves the loop where it was. *)
Theorem status_cycle (n m : Z) (c3 : option Z) (u1 u2 u3 : bool)
    (sent : list string) (l : list logline) :
  let t1 := statusTick (Some n) u1 0 sent l in
  let t2 := statusTick (Some m) u2 t1.1.1 t1.1.2 t1.2 in
  let t3 := statusTick c3 u3 t2.1.1 t2.1.2 t2.2 in
  t3.1.1 = 0%Z
  /\ t3.1.2
     = sent ++ ["Helping " +:+ pretty n +:+ " servers";
                pretty m +:+ " commands handled"; ""]
  /\ (statusTick None u1 0 sent l).1 = (0%Z, sent)
  /\ (statusTick None u2 1 sent l).1 = (1%Z, sent).
Proof.
  cbn zeta. unfold statusTick. cbn [Z.eqb fst snd].
  change (incr 0) with 1%Z. change (incr 1) with 2%Z.
  cbn [Z.eqb Pos.eqb fst snd]. change (incr (-1)) with 0%Z.
  rewrite <- !app_assoc. by repeat split.
Qed.

End BotSpec.

(** ** The utilities *)

Module UtilsSpec.
Import Utils.

(** *** Slices of strings *)

Lemma upto_length n : forall s,
  String.length (upto n s) = Nat.min n (String.length s).
Proof.
  induction n as [|n IH]; intros [|a s]; cbn; try reflexivity.
  by rewrite IH.
Qed.

Lemma upto_all n : forall s, String.length s <= n -> upto n s = s.
Proof.
  induction n as [|n IH]; intros [|a s] Hlen; cbn in *; try reflexivity;
    try lia.
  rewrite IH by lia. reflexivity.
Qed.

(** *** One test of the validation *)

(** [if len(s) > lim { s = s[:lim]; note }], for strings. *)
Lemma clip_string lim s msg (st : notes) :
  exists new,
    (if lim <? String.length s then (upto lim s, note msg st) else (s, st))
    = (upto lim s,
       (st.1 || negb (String.length s <=? lim), st.2 ++ new))
    /\ (String.length (upto lim s) <=? lim) = true
    /\ ((String.length s <=? lim) = true -> upto lim s = s /\ new = [])
    /\ ((String.length s <=? lim) = false -> new <> []).
Proof.
  assert (Hfit : (String.length (upto lim s) <=? lim) = true)
    by (apply Nat.leb_le; rewrite upto_length; lia).
  destruct st as [m es].
  destruct (Nat.ltb_spec lim (String.length s)) as [Hlong | Hshort].
  - exists [msg]. replace (String.length s <=? lim) with false
      by (symmetry; apply Nat.leb_gt; lia).
    unfold note. cbn [fst snd negb]. rewrite orb_true_r.
    repeat split; try done.
  - exists []. replace (String.length s <=? lim) with true
      by (symmetry; apply Nat.leb_le; lia).
    cbn [fst snd negb]. rewrite orb_false_r, app_nil_r.
    rewrite (upto_all lim s Hshort).
    repeat split; try done. by rewrite (upto_all lim s Hshort) in Hfit.
Qed.

(** The same for a string held as the value of a choice. *)
Lemma clip_value lim s msg (st : notes) :
  exists new,
    (if lim <? String.length s
     then (StringValue (upto lim s), note msg st)
     else (StringValue s, st))
    = (StringValue (upto lim s),
       (st.1 || negb (String.length s <=? lim), st.2 ++ new))
    /\ (String.length (upto lim s) <=? lim) = true
    /\ ((String.length s <=? lim) = true -> upto lim s = s /\ new = [])
    /\ ((String.length s <=? lim) = false -> new <> []).
Proof.
  destruct (clip_string lim s msg st) as (new & E & F & K & N).
  exists new. split; [|exact (conj F (conj K N))].
  apply (f_equal (fun p : string * notes => (StringValue p.1, p.2))) in E.
  destruct (lim <? String.length s); exact E.
Qed.

(** The same for slices. *)
Lemma clip_list {A} lim (xs : list A) msg (st : notes) :
  exists new,
    (if lim <? length xs then (take lim xs, note msg st) else (xs, st))
    = (take lim xs, (st.1 || negb (length xs <=? lim), st.2 ++ new))
    /\ (length (take lim xs) <=? lim) = true
    /\ ((length xs <=? lim) = true -> take lim xs = xs /\ new = [])
    /\ ((length xs <=? lim) = false -> new <> []).
Proof.
  assert (Hfit : (length (take lim xs) <=? lim) = true)
    by (apply Nat.leb_le; rewrite length_take; lia).
  destruct st as [m es].
  destruct (Nat.ltb_spec lim (length xs)) as [Hlong | Hshort].
  - exists [msg]. replace (length xs <=? lim) with false
      by (symmetry; apply Nat.leb_gt; lia).
    unfold note. cbn [fst snd negb]. rewrite orb_true_r.
    repeat split; try done.
  - exists []. replace (length xs <=? lim) with true
      by (symmetry; apply Nat.leb_le; lia).
    cbn [fst snd negb]. rewrite orb_false_r, app_nil_r.
    rewrite (take_ge xs lim Hshort).
    repeat split; try done. by rewrite (take_ge xs lim Hshort) in Hfit.
Qed.

(** *** Rounds and loops *)

Lemma each_length {A} (round : A -> notes -> A * notes) xs : forall st,
  length (each round xs st).1 = length xs.
Proof.
  induction xs as [|x xs IH]; intros st; [reflexivity|].
  cbn [each]. destruct (round x st) as [x' st1].
  specialize (IH st1). destruct (each round xs st1) as [xs' st2].
  cbn in *. by rewrite IH.
Qed.

Lemma each_checks {A} (fit : A -> bool) (round : A -> notes -> A * notes) :
  checks fit round -> checks (forallb fit) (each round).
Proof.
  intros Hr xs. induction xs as [|x xs IH]; intros st.
  - exists []. destruct st as [m es]. cbn.
    rewrite orb_false_r, app_nil_r. by repeat split.
  - destruct (Hr x st) as (n1 & E1 & F1 & K1 & N1).
    cbn [each]. destruct (round x st) as [x' st1]. cbn [fst snd] in *.
    subst st1.
    destruct (IH (st.1 || negb (fit x), st.2 ++ n1)) as (n2 & E2 & F2 & K2 & N2).
    destruct (each round xs _) as [xs' st2]. cbn [fst snd] in *. subst st2.
    exists (n1 ++ n2). cbn [forallb]. split; [|split; [|split]].
    + rewrite negb_andb, orb_assoc, app_assoc. reflexivity.
    + by rewrite F1, F2.
    + intros Hboth. apply andb_prop in Hboth as [Hx Hxs].
      destruct (K1 Hx) as [-> ->]. destruct (K2 Hxs) as [-> ->].
      by split.
    + intros Hnot. apply andb_false_iff in Hnot as [Hx | Hxs].
      * specialize (N1 Hx). destruct n1; [done | discriminate].
      * specialize (N2 Hxs). destruct n1; [exact N2 | discriminate].
Qed.

Lemma validateChoice_checks : checks fitsChoice validateChoice.
Proof.
  intros [name value] st. unfold validateChoice, fitsChoice.
  cbn [choiceName choiceValue_].
  destruct (clip_string maxChoiceNameLength name "Choice name was truncated" st)
    as (n1 & E1 & F1 & K1 & N1).
  rewrite E1. clear E1.
  set (st1 := (st.1 || negb (String.length name <=? maxChoiceNameLength),
               st.2 ++ n1)).
  destruct value as [strVal | v].
  - destruct (clip_value maxChoiceValueLength strVal
                "Choice value was truncated" st1) as (n2 & E2 & F2 & K2 & N2).
    rewrite E2. clear E2. subst st1.
    cbn [fst snd choiceName choiceValue_].
    exists (n1 ++ n2). split; [|split; [|split]].
    + rewrite negb_andb, orb_assoc, app_assoc. reflexivity.
    + by rewrite F1, F2.
    + intros Hboth. apply andb_prop in Hboth as [Hn Hv].
      destruct (K1 Hn) as [-> ->]. destruct (K2 Hv) as [-> ->]. by split.
    + intros Hnot. apply andb_false_iff in Hnot as [Hn | Hv].
      * specialize (N1 Hn). destruct n1; [done | discriminate].
      * specialize (N2 Hv). destruct n1; [exact N2 | discriminate].
  - subst st1. cbn [fst snd choiceName choiceValue_].
    exists n1. rewrite andb_true_r. split; [|split; [|split]].
    + reflexivity.
    + by rewrite andb_true_r.
    + intros Hn. destruct (K1 Hn) as [-> ->]. by split.
    + exact N1.
Qed.

Lemma validateOption_checks : checks fitsOption validateOption.
Proof.
  intros [name description choices] st. unfold validateOption, fitsOption.
  cbn [optionName optionDescription optionChoices].
  destruct (clip_string maxOptionNameLength name "Option name was truncated" st)
    as (n1 & E1 & F1 & K1 & N1).
  rewrite E1. clear E1.
  set (st1 := (st.1 || negb (String.length name <=? maxOptionNameLength),
               st.2 ++ n1)).
  destruct (clip_string maxOptionDescLength description
              "Option description was truncated" st1)
    as (n2 & E2 & F2 & K2 & N2).
  rewrite E2. clear E2.
  set (st2 := (st1.1 || negb (String.length description <=? maxOptionDescLength),
               st1.2 ++ n2)).
  destruct (clip_list maxChoicesPerOption choices
              "Excess choices were removed" st2)
    as (n3 & E3 & F3 & K3 & N3).
  rewrite E3. clear E3.
  set (st3 := (st2.1 || negb (length choices <=? maxChoicesPerOption),
               st2.2 ++ n3)).
  destruct (each_checks fitsChoice validateChoice validateChoice_checks
              (take maxChoicesPerOption choices) st3)
    as (n4 & E4 & F4 & K4 & N4).
  pose proof (each_length validateChoice (take maxChoicesPerOption choices) st3)
    as Hlen.
  unfold validateChoices.
  destruct (each validateChoice (take maxChoicesPerOption choices) st3)
    as [choices' st4].
  cbn [fst snd] in *. subst st4 st3 st2 st1.
  cbn [fst snd optionName optionDescription optionChoices].
  exists (n1 ++ n2 ++ n3 ++ n4). split; [|split; [|split]].
  - rewrite !negb_andb, !orb_assoc, !app_assoc.
    destruct (length choices <=? maxChoicesPerOption) eqn:Hc.
    + destruct (K3 eq_refl) as [-> _]. reflexivity.
    + cbn [negb]. rewrite !orb_true_r. reflexivity.
  - rewrite F1, F2, F4, Hlen, F3. reflexivity.
  - intros Hall. apply andb_prop in Hall as [Hall H4].
    apply andb_prop in Hall as [Hall H3].
    apply andb_prop in Hall as [H1 H2].
    destruct (K1 H1) as [-> ->]. destruct (K2 H2) as [-> ->].
    destruct (K3 H3) as [Htake ->]. rewrite Htake in K4.
    destruct (K4 H4) as [-> ->]. by split.
  - intros Hnot.
    destruct (String.length name <=? maxOptionNameLength) eqn:H1;
      [|specialize (N1 eq_refl); destruct n1; [done | discriminate]].
    destruct (String.length description <=? maxOptionDescLength) eqn:H2;
      [|specialize (N2 eq_refl); destruct n1, n2; try discriminate; done].
    destruct (length choices <=? maxChoicesPerOption) eqn:H3;
      [|specialize (N3 eq_refl); destruct n1, n2, n3; try discriminate; done].
    cbn [andb] in Hnot. destruct (K3 eq_refl) as [Htake _].
    rewrite Htake in N4. specialize (N4 Hnot).
    destruct n1, n2, n3; try discriminate. exact N4.
Qed.

(** What [ValidateCommand] does, in one statement: the command it leaves is
    within the limits, the flag is set unless the command it was given was,
    and messages are appended, none if that command was within the limits
    and one or more if not. *)
Lemma ValidateCommand_checks cmd :
  let res := ValidateCommand cmd in
  fits (Command res) = true
  /\ IsValid res = true
  /\ WasModified res = negb (fits cmd)
  /\ (fits cmd = true -> Command res = cmd /\ Errors res = [])
  /\ (fits cmd = false -> Errors res <> []).
Proof.
  destruct cmd as [name description options].
  unfold ValidateCommand, fits.
  cbn [commandName commandDescription commandOptions].
  set (st := (false, []) : notes).
  destruct (clip_string maxCommandNameLength name
              "Command name was truncated" st)
    as (n1 & E1 & F1 & K1 & N1).
  rewrite E1. clear E1.
  set (st1 := (st.1 || negb (String.length name <=? maxCommandNameLength),
               st.2 ++ n1)).
  destruct (clip_string maxCommandDescriptionLength description
              "Command description was truncated" st1)
    as (n2 & E2 & F2 & K2 & N2).
  rewrite E2. clear E2.
  set (st2 := (st1.1 || negb (String.length description
                                <=? maxCommandDescriptionLength),
               st1.2 ++ n2)).
  destruct (clip_list maxOptionsPerCommand options
              "Excess options were removed" st2)
    as (n3 & E3 & F3 & K3 & N3).
  rewrite E3. clear E3.
  set (st3 := (st2.1 || negb (length options <=? maxOptionsPerCommand),
               st2.2 ++ n3)).
  destruct (each_checks fitsOption validateOption validateOption_checks
              (take maxOptionsPerCommand options) st3)
    as (n4 & E4 & F4 & K4 & N4).
  pose proof (each_length validateOption (take maxOptionsPerCommand options) st3)
    as Hlen.
  unfold validateOptions.
  destruct (each validateOption (take maxOptionsPerCommand options) st3)
    as [options' st4].
  cbn [fst snd] in *. subst st4 st3 st2 st1 st.
  cbn [fst snd Command IsValid WasModified Errors
       commandName commandDescription commandOptions orb app].
  split; [|split; [|split; [|split]]].
  - rewrite F1, F2, F4, Hlen, F3. reflexivity.
  - reflexivity.
  - rewrite !negb_andb.
    destruct (length options <=? maxOptionsPerCommand) eqn:Hc.
    + destruct (K3 eq_refl) as [-> _]. reflexivity.
    + cbn [negb]. rewrite !orb_true_r. reflexivity.
  - intros Hall. apply andb_prop in Hall as [Hall H4].
    apply andb_prop in Hall as [Hall H3].
    apply andb_prop in Hall as [H1 H2].
    destruct (K1 H1) as [-> ->]. destruct (K2 H2) as [-> ->].
    destruct (K3 H3) as [Htake ->]. rewrite Htake in K4.
    destruct (K4 H4) as [-> ->]. by split.
  - intros Hnot.
    destruct (String.length name <=? maxCommandNameLength) eqn:H1;
      [|specialize (N1 eq_refl); destruct n1; [done | discriminate]].
    destruct (String.length description <=? maxCommandDescriptionLength) eqn:H2;
      [|specialize (N2 eq_refl); destruct n1, n2; try discriminate; done].
    destruct (length options <=? maxOptionsPerCommand) eqn:H3;
      [|specialize (N3 eq_refl); destruct n1, n2, n3; try discriminate; done].
    cbn [andb] in Hnot. destruct (K3 eq_refl) as [Htake _].
    rewrite Htake in N4. specialize (N4 Hnot).
    destruct n1, n2, n3; try discriminate. exact N4.
Qed.

(** *** ValidateCommand *)


(** X21. [ValidateCommand] sets [WasModified] exactly when the command it was
    given was over some limit, and exactly then does it return messages. *)
Theorem ValidateCommand_modified_iff (cmd : ApplicationCommand) :
  let res := ValidateCommand cmd in
  WasModified res = negb (fits cmd)
  /\ (WasModified res = true <-> Errors res <> []).
Proof.
  destruct (ValidateCommand_checks cmd) as (_ & _ & Hmod & Hkeep & Herr).
  cbn zeta in *. split; [exact Hmod|]. rewrite Hmod.
  destruct (fits cmd).
  - destruct (Hkeep eq_refl) as [_ ->]. split; [discriminate | done].
  - split; [intros _; by apply Herr | reflexivity].
Qed.

(** X22. A command within the limits comes back as it was, unmodified and with
    no message; so does, given again, any command that [ValidateCommand]
    has returned. *)
Theorem ValidateCommand_fitting_unchanged (cmd : ApplicationCommand) :
  fits cmd = true ->
  ValidateCommand cmd = mkResult cmd true false []
  /\ forall any,
       ValidateCommand (Command (ValidateCommand any))
       = mkResult (Command (ValidateCommand any)) true false [].
Proof.
  assert (Hgen : forall c, fits c = true ->
                           ValidateCommand c = mkResult c true false []).
  { intros c Hc.
    destruct (ValidateCommand_checks c) as (_ & Hvalid & Hmod & Hkeep & _).
    cbn zeta in *. destruct (Hkeep Hc) as [Hcmd Herr].
    rewrite Hc in Hmod. destruct (ValidateCommand c) as [c' v m es].
    cbn in *. by subst. }
  intros Hfit. split; [by apply Hgen|].
  intros any. apply Hgen.
  by destruct (ValidateCommand_checks any) as (Hfits & _).
Qed.

Lemma ValidateCommand_fitting_unchanged_witness :
  ValidateCommand ping = mkResult ping true false []
  /\ ValidateCommand (Command (ValidateCommand ping))
     = mkResult (Command (ValidateCommand ping)) true false [].
Proof.
  destruct (ValidateCommand_fitting_unchanged ping) as [Hsame Hagain];
    [reflexivity|].
  split; [exact Hsame | apply Hagain].
Defined.

(** *** MapOptions *)

(** X23. [MapOptions] binds a name to the last option of the interaction that
    has it, and binds no other name. *)
Theorem MapOptions_last_wins (os : list InteractionOption) (name : string) :
  MapOptions os !! name = last (filter (fun opt => Name opt = name) os).
Proof.
  induction os as [|opt os IH] using rev_ind; [apply lookup_empty|].
  unfold MapOptions in *. rewrite fold_left_app. cbn [fold_left].
  rewrite filter_app, filter_cons, filter_nil.
  destruct (decide (Name opt = name)) as [Heq | Hne].
  - rewrite Heq, lookup_insert_eq, last_snoc. reflexivity.
  - rewrite lookup_insert_ne by done. by rewrite app_nil_r.
Qed.

End UtilsSpec.

(** ** Durations as text *)

Module FormatSpec.
Import Go GoFacts Format.
Local Open Scope Z_scope.

Lemma wrap_range x : in_int (wrap x).
Proof.
  unfold in_int, int_min, int_max, wrap.
  pose proof (Z.mod_pos_bound (x + 2 ^ 63) (2 ^ 64)). lia.
Qed.

Lemma lessThanHalf_small x y :
  0 <= x < 2 ^ 62 -> 0 <= y < 2 ^ 63 ->
  lessThanHalf x y = (2 * x <? y).
Proof.
  intros Hx Hy. unfold lessThanHalf.
  rewrite (Z.mod_small x), (Z.mod_small y), (Z.mod_small (x + x)) by lia.
  f_equal. lia.
Qed.

(** Rounding to the minute of what is less than half a minute from a whole
    number [k] of minutes, the half below included. *)
Lemma Round_near k r :
  0 <= k < 2 ^ 26 ->
  - (30 * Second) <= r < 30 * Second ->
  0 <= k * Minute + r ->
  Round (k * Minute + r) Minute = k * Minute.
Proof.
  intros Hk Hr Hpos. unfold Round.
  change (Minute <=? 0) with false. cbn match.
  destruct (Z.ltb_spec (k * Minute + r) 0) as [|_]; [lia|].
  assert (Hrem : Z.rem (k * Minute + r) Minute
                 = if r <? 0 then Minute + r else r).
  { destruct (Z.ltb_spec r 0).
    - symmetry. apply (Z.rem_unique _ _ (k - 1)); unfold Minute, Second in *; lia.
    - symmetry. apply (Z.rem_unique _ _ k); unfold Minute, Second in *; lia. }
  rewrite Hrem. unfold sub64, add64.
  destruct (Z.ltb_spec r 0).
  - rewrite lessThanHalf_small by (unfold Minute, Second in *; lia).
    destruct (Z.ltb_spec (2 * (Minute + r)) Minute);
      [unfold Minute, Second in *; lia|].
    rewrite (wrap_in_int (k * Minute + r + Minute))
      by (unfold in_int, int_min, int_max, Minute, Second in *; lia).
    rewrite wrap_in_int
      by (unfold in_int, int_min, int_max, Minute, Second in *; lia).
    destruct (Z.ltb_spec (k * Minute + r) (k * Minute + r + Minute - (Minute + r)));
      lia.
  - rewrite lessThanHalf_small by (unfold Minute, Second in *; lia).
    destruct (Z.ltb_spec (2 * r) Minute); [|unfold Minute, Second in *; lia].
    rewrite wrap_in_int
      by (unfold in_int, int_min, int_max, Minute, Second in *; lia).
    lia.
Qed.

(** Rounding a duration below zero gives none above it. *)
Lemma Round_neg d :
  in_int d -> d < 0 -> in_int (Round d Minute) /\ Round d Minute <= 0.
Proof.
  intros Hd Hneg. unfold Round.
  change (Minute <=? 0) with false. cbn match.
  destruct (Z.ltb_spec d 0) as [_|]; [|lia].
  pose proof (Z.rem_bound_pos_neg d Minute eq_refl (Z.lt_le_incl _ _ Hneg))
    as Hr.
  pose proof (Z.quot_rem' d Minute) as Hqr.
  set (r := Z.rem d Minute) in *. set (q := Z.quot d Minute) in *.
  assert (Hq : q <= 0) by (unfold Minute, Second in *; lia).
  unfold neg64. rewrite (wrap_in_int (- r))
    by (unfold in_int, int_min, int_max, Minute, Second in *; lia).
  destruct (lessThanHalf (- r) Minute).
  - unfold add64.
    assert (Hsum : d <= d + - r <= 0) by (unfold Minute, Second in *; lia).
    rewrite wrap_in_int by (unfold in_int, int_min, int_max in *; lia).
    split; [unfold in_int, int_min, int_max in *; lia | lia].
  - destruct (Z.ltb_spec (add64 (sub64 d Minute) (- r)) d).
    + split; [apply wrap_range | lia].
    + split; [unfold in_int, int_min, int_max; lia | unfold int_min; lia].
Qed.

(* no part is made for a count that is not above zero *)
Lemma part_nonpos n one many parts : n <= 0 -> part n one many parts = parts.
Proof.
  intros Hn. unfold part. destruct (Z.ltb_spec 0 n); [lia | reflexivity].
Qed.

(** Taking the whole units out of a duration that is not above zero:
    their count is not above zero, and what is left is the remainder. *)
Lemma take_units a k1 k2 :
  in_int a -> a <= 0 -> 1 <= k1 -> 1 <= k2 ->
  let q := Z.quot a (k1 * k2 * Hour) in
  let left := sub64 a (mul64 (mul64 (mul64 q k1) k2) Hour) in
  q <= 0 /\ in_int left /\ left <= 0.
Proof.
  intros Ha Hneg Hk1 Hk2 q left.
  assert (HU : 0 < k1 * k2 * Hour) by (unfold Hour, Minute, Second; nia).
  pose proof (Z.quot_rem' a (k1 * k2 * Hour)) as Hqr. fold q in Hqr.
  pose proof (Z.rem_bound_pos_neg a (k1 * k2 * Hour) HU Hneg) as Hrem.
  set (r := Z.rem a (k1 * k2 * Hour)) in *.
  assert (Hq : q <= 0).
  { destruct (Z.le_gt_cases q 0) as [|Hpos]; [done|].
    assert (k1 * k2 * Hour <= k1 * k2 * Hour * q) by nia. lia. }
  assert (HH : 1 <= Hour) by (unfold Hour, Minute, Second; lia).
  assert (Hmono : forall x k, x <= 0 -> 1 <= k -> x * k <= x /\ x * k <= 0)
    by (intros; nia).
  destruct (Hmono q k1 Hq Hk1) as [M1 N1].
  destruct (Hmono (q * k1) k2 N1 Hk2) as [M2 N2].
  destruct (Hmono (q * k1 * k2) Hour N2 HH) as [M3 N3].
  assert (Hsame : k1 * k2 * Hour * q = q * k1 * k2 * Hour) by ring.
  assert (B1 : a <= q * k1 <= 0) by lia.
  assert (B2 : a <= q * k1 * k2 <= 0) by lia.
  assert (B3 : a <= q * k1 * k2 * Hour <= 0) by lia.
  subst left. unfold sub64, mul64.
  rewrite (wrap_in_int (q * k1)) by (unfold in_int, int_min, int_max in *; lia).
  rewrite (wrap_in_int (q * k1 * k2)) by (unfold in_int, int_min, int_max in *; lia).
  rewrite (wrap_in_int (q * k1 * k2 * Hour)) by (unfold in_int, int_min, int_max in *; lia).
  assert (Hleft : a - q * k1 * k2 * Hour = r) by lia.
  rewrite Hleft, wrap_in_int by (unfold in_int, int_min, int_max in *; lia).
  split; [exact Hq|]. split; [unfold in_int, int_min, int_max in *; lia | lia].
Qed.

Lemma take_units2 a k :
  in_int a -> a <= 0 -> 1 <= k ->
  let q := Z.quot a (k * Hour) in
  let left := sub64 a (mul64 (mul64 q k) Hour) in
  q <= 0 /\ in_int left /\ left <= 0.
Proof.
  intros Ha Hneg Hk q left.
  assert (HU : 0 < k * Hour) by (unfold Hour, Minute, Second; nia).
  pose proof (Z.quot_rem' a (k * Hour)) as Hqr. fold q in Hqr.
  pose proof (Z.rem_bound_pos_neg a (k * Hour) HU Hneg) as Hrem.
  set (r := Z.rem a (k * Hour)) in *.
  assert (Hq : q <= 0).
  { destruct (Z.le_gt_cases q 0) as [|Hpos]; [done|].
    assert (k * Hour <= k * Hour * q) by nia. lia. }
  assert (HH : 1 <= Hour) by (unfold Hour, Minute, Second; lia).
  assert (Hmono : forall x k, x <= 0 -> 1 <= k -> x * k <= x /\ x * k <= 0)
    by (intros; nia).
  destruct (Hmono q k Hq Hk) as [M1 N1].
  destruct (Hmono (q * k) Hour N1 HH) as [M2 N2].
  assert (Hsame : k * Hour * q = q * k * Hour) by ring.
  subst left. unfold sub64, mul64.
  rewrite (wrap_in_int (q * k)) by (unfold in_int, int_min, int_max in *; lia).
  rewrite (wrap_in_int (q * k * Hour))
    by (unfold in_int, int_min, int_max in *; lia).
  assert (Hleft : a - q * k * Hour = r) by lia.
  rewrite Hleft, wrap_in_int by (unfold in_int, int_min, int_max in *; lia).
  split; [exact Hq|].
  split; [unfold in_int, int_min, int_max in *; lia | lia].
Qed.

Lemma take_units1 a :
  in_int a -> a <= 0 ->
  let q := Z.quot a Hour in
  let left := sub64 a (mul64 q Hour) in
  q <= 0 /\ in_int left /\ left <= 0.
Proof.
  intros Ha Hneg q left.
  assert (HU : 0 < Hour) by reflexivity.
  pose proof (Z.quot_rem' a Hour) as Hqr. fold q in Hqr.
  pose proof (Z.rem_bound_pos_neg a Hour HU Hneg) as Hrem.
  set (r := Z.rem a Hour) in *.
  assert (Hq : q <= 0).
  { destruct (Z.le_gt_cases q 0) as [|Hpos]; [done|].
    assert (Hour <= Hour * q) by nia. lia. }
  assert (HH : 1 <= Hour) by (unfold Hour, Minute, Second; lia).
  assert (M1 : q * Hour <= 0) by nia.
  assert (Hsame : Hour * q = q * Hour) by ring.
  subst left. unfold sub64, mul64.
  rewrite (wrap_in_int (q * Hour))
    by (unfold in_int, int_min, int_max in *; lia).
  assert (Hleft : a - q * Hour = r) by lia.
  rewrite Hleft, wrap_in_int by (unfold in_int, int_min, int_max in *; lia).
  split; [exact Hq|].
  split; [unfold in_int, int_min, int_max in *; lia | lia].
Qed.

(** A rounded duration that is not above zero has no part to show. *)
Lemma formatRounded_nonpos d :
  in_int d -> d <= 0 -> formatRounded d = "0 minutes".
Proof.
  intros Hd Hneg. unfold formatRounded. cbv zeta.
  destruct (take_units d 365 24 Hd Hneg) as (Hy & Hi1 & Hn1); [lia | lia |].
  set (years := Z.quot d (365 * 24 * Hour)) in *.
  set (d1 := sub64 d (mul64 (mul64 (mul64 years 365) 24) Hour)) in *.
  destruct (take_units d1 30 24 Hi1 Hn1) as (Hmo & Hi2 & Hn2); [lia | lia |].
  set (months := Z.quot d1 (30 * 24 * Hour)) in *.
  set (d2 := sub64 d1 (mul64 (mul64 (mul64 months 30) 24) Hour)) in *.
  destruct (take_units d2 7 24 Hi2 Hn2) as (Hw & Hi3 & Hn3); [lia | lia |].
  set (weeks := Z.quot d2 (7 * 24 * Hour)) in *.
  set (d3 := sub64 d2 (mul64 (mul64 (mul64 weeks 7) 24) Hour)) in *.
  destruct (take_units2 d3 24 Hi3 Hn3) as (Hda & Hi4 & Hn4); [lia |].
  set (days := Z.quot d3 (24 * Hour)) in *.
  set (d4 := sub64 d3 (mul64 (mul64 days 24) Hour)) in *.
  destruct (take_units1 d4 Hi4 Hn4) as (Hh & Hi5 & Hn5).
  set (h := Z.quot d4 Hour) in *.
  set (d5 := sub64 d4 (mul64 h Hour)) in *.
  assert (Hm : Z.quot d5 Minute <= 0).
  { pose proof (Z.quot_rem' d5 Minute) as Hqr.
    pose proof (Z.rem_bound_pos_neg d5 Minute eq_refl Hn5) as Hrem.
    destruct (Z.le_gt_cases (Z.quot d5 Minute) 0) as [|Hpos]; [done|].
    unfold Minute, Second in *. lia. }
  rewrite !part_nonpos by assumption. reflexivity.
Qed.

(** X24. A duration under half a minute reads as no minutes: so do all the
    durations below zero, however long. *)
Theorem FormatDuration_under_half_minute (d : Duration) :
  in_int d ->
  d < 30 * Second ->
  FormatDuration d = "0 minutes".
Proof.
  intros Hd Hsmall. unfold FormatDuration.
  destruct (Z.lt_ge_cases d 0) as [Hneg | Hpos].
  - destruct (Round_neg d Hd Hneg) as [Hin Hle].
    by apply formatRounded_nonpos.
  - replace d with (0 * Minute + d) by lia.
    rewrite Round_near by (unfold Second in *; lia).
    reflexivity.
Qed.

Lemma FormatDuration_under_half_minute_witness :
  FormatDuration (29 * Second) = "0 minutes"
  /\ FormatDuration (- (400 * 24 * Hour)) = "0 minutes".
Proof.
  split; apply FormatDuration_under_half_minute;
    first [ split; vm_compute; discriminate | reflexivity ].
Defined.

(** X25. From half a minute below a whole number of minutes under sixty to half
    a minute above it, the first included and the second not, a duration
    reads as that number of minutes. *)
Theorem FormatDuration_minutes (k : Z) (r : Duration) :
  1 <= k < 60 ->
  - (30 * Second) <= r < 30 * Second ->
  FormatDuration (k * Minute + r)
  = if k =? 1 then "1 minute" else pretty k +:+ " minutes".
Proof.
  intros Hk Hr. unfold FormatDuration.
  rewrite Round_near by (unfold Minute, Second in *; lia).
  unfold formatRounded. cbv zeta.
  assert (Hsmall : forall U, 60 * Minute <= U -> Z.quot (k * Minute) U = 0).
  { intros U HU. apply Z.quot_small. unfold Minute, Second in *. lia. }
  assert (Hkeep : sub64 (k * Minute) 0 = k * Minute).
  { unfold sub64. rewrite Z.sub_0_r. apply wrap_in_int.
    unfold in_int, int_min, int_max, Minute, Second. lia. }
  rewrite (Hsmall (365 * 24 * Hour)) by (unfold Hour, Minute, Second; lia).
  change (mul64 (mul64 (mul64 0 365) 24) Hour) with 0. rewrite Hkeep.
  rewrite (Hsmall (30 * 24 * Hour)) by (unfold Hour, Minute, Second; lia).
  change (mul64 (mul64 (mul64 0 30) 24) Hour) with 0. rewrite Hkeep.
  rewrite (Hsmall (7 * 24 * Hour)) by (unfold Hour, Minute, Second; lia).
  change (mul64 (mul64 (mul64 0 7) 24) Hour) with 0. rewrite Hkeep.
  rewrite (Hsmall (24 * Hour)) by (unfold Hour, Minute, Second; lia).
  change (mul64 (mul64 0 24) Hour) with 0. rewrite Hkeep.
  rewrite (Hsmall Hour) by (unfold Hour, Minute, Second; lia).
  change (mul64 0 Hour) with 0. rewrite Hkeep.
  rewrite Z.quot_mul by discriminate.
  rewrite !(part_nonpos 0) by lia.
  unfold part. destruct (Z.ltb_spec 0 k); [|lia].
  destruct (k =? 1); reflexivity.
Qed.

Lemma FormatDuration_minutes_witness :
  FormatDuration (30 * Second) = "1 minute"
  /\ FormatDuration (45 * Minute + 29 * Second) = "45 minutes".
Proof.
  split.
  - apply (FormatDuration_minutes 1 (- (30 * Second)));
      split; vm_compute; first [discriminate | reflexivity].
  - apply (FormatDuration_minutes 45 (29 * Second));
      split; vm_compute; first [discriminate | reflexivity].
Defined.

End FormatSpec.
